(** * Procedural-Terrain-OpenGL-Demo: heightmap synthesis, normal maps,
      the bloom ping-pong and the sun controller

    A shallow embedding of the algorithmic core of the demo's main
    translation unit:

    - [FBM], [GenerateHeightMap] and [GenerateNormalMap] (terrain synthesis),
    - the bloom blur loop of [main] and the texture it hands to the
      composite pass, the draw calls of one frame and the frame clock,
    - [EaseInOutSine] and [AnimateSun] (the sun state machine),
    - [mouse_callback] and [ProcessInput] (the camera).

    Conventions of the embedding.

    - A C++ [float] is modelled as a real number ([R]): arithmetic is exact,
      there is no rounding, overflow, infinity or NaN.  Comparisons of
      floats become decidable comparisons of reals ([Rlt_dec]).  A division
      by zero, which gives an infinity or a NaN in C++, gives 0 in [R]; no
      theorem below depends on the value of such a division.
    - [int] values that count things ([textureSize], [octaves], loop
      counters) are natural numbers; their overflow is not modelled.
    - A [std::vector] is a list; [v[i] = e] is stdpp's [<[i:=e]> v] and a
      read [v[i]] is a lookup.  Every access the theorems speak about is in
      range.
    - The globals read and written by [AnimateSun] are the fields of the
      record [SunState]; one call of [AnimateSun] is one function from the
      state before the frame to the state after it.
    - [SimplexNoise::noise] is a library function outside the repository;
      the terrain functions take it as a parameter [noise]. *)

From Stdlib Require Import Reals Lra Lia ZArith List Zfloor Sorted.
From stdpp Require Import base list.

Open Scope R_scope.

(** ** Loops *)

(** [for (int i = lo; i < hi; ++i) body(i)] over a state of type [A]. *)
Definition for_range {A : Type} (lo hi : nat) (body : nat -> A -> A) (a : A) : A :=
  fold_left (fun acc i => body i acc) (seq lo (hi - lo)) a.

(** [Rsum n f] is f 0 + f 1 + ... + f (n-1). *)
Fixpoint Rsum (n : nat) (f : nat -> R) : R :=
  match n with
  | O => 0
  | S k => Rsum k f + f k
  end.

(** [writes w dom val]: the vector transformer [w] keeps the length, leaves
    every index outside [dom] alone, stores [val j] at every index [j] of
    [dom] that is in range, and never spoils an index that already holds
    [val j].  Used to reason about loops of [v[i] = e] statements whose
    stored value is determined by the index. *)
Definition writes {A : Type} (w : list A -> list A) (dom : nat -> Prop)
    (val : nat -> A) : Prop :=
  forall m : list A,
    List.length (w m) = List.length m /\
    (forall j, ~ dom j -> w m !! j = m !! j) /\
    (forall j, dom j -> (j < List.length m)%nat -> w m !! j = Some (val j)) /\
    (forall j, m !! j = Some (val j) -> w m !! j = Some (val j)).

(** ** The part of GLM that the program uses *)
Module Glm.

Record vec3 : Type := Vec3 { vx : R; vy : R; vz : R }.

(** [glm::vec3()] inside a value-initialised [std::vector]. *)
Definition vec3_zero : vec3 := Vec3 0 0 0.

(** [v * s] and [v + s] with a scalar [s]. *)
Definition vscale (v : vec3) (s : R) : vec3 :=
  Vec3 (vx v * s) (vy v * s) (vz v * s).
Definition vadds (v : vec3) (s : R) : vec3 :=
  Vec3 (vx v + s) (vy v + s) (vz v + s).

Definition dot (a b : vec3) : R :=
  vx a * vx b + vy a * vy b + vz a * vz b.

(** [glm::length(v)] is [sqrt(dot(v, v))]. *)
Definition length (v : vec3) : R := sqrt (dot v v).

(** [glm::normalize(v)] is [v * inversesqrt(dot(v, v))]. *)
Definition normalize (v : vec3) : vec3 := vscale v (/ sqrt (dot v v)).

(** [glm::mix(x, y, a)] is [x * (1 - a) + y * a]. *)
Definition mix (x y a : R) : R := x * (1 - a) + y * a.
Definition mix3 (x y : vec3) (a : R) : vec3 :=
  Vec3 (mix (vx x) (vx y) a) (mix (vy x) (vy y) a) (mix (vz x) (vz y) a).

(** [glm::degrees(r)]. *)
Definition degrees (r : R) : R := r * (180 / PI).

End Glm.

(** ** Comparisons of floats as booleans *)
Definition Rltb (a b : R) : bool := if Rlt_dec a b then true else false.
Definition Rgtb (a b : R) : bool := Rltb b a.
Definition Rgeb (a b : R) : bool := if Rle_dec b a then true else false.

(** ** Terrain synthesis *)
Module Terrain.
Import Glm.

(** [static_cast<unsigned char>(f)]: the fractional part is discarded
    (truncation toward zero).  C++ leaves the result undefined when the
    truncated value is not in 0..255; the model wraps it modulo 256. *)
Definition Ztrunc (r : R) : Z := if Rle_dec 0 r then Zfloor r else Zceil r.
Definition uchar_cast (r : R) : Z := (Ztrunc r mod 256)%Z.

Section WithNoise.

(** [SimplexNoise::noise(x, y)] *)
Variable noise : R -> R -> R.

(** The four locals of [FBM]'s loop. *)
Record fbm_acc : Type := FbmAcc {
  total : R;
  amplitude : R;
  frequency : R;
  maxValue : R
}.

(** One iteration of the loop body of [FBM]. *)
Definition fbm_body (x y lacunarity persistence : R) (a : fbm_acc) : fbm_acc :=
  let total' := total a + noise (x * frequency a) (y * frequency a) * amplitude a in
  let maxValue' := maxValue a + amplitude a in
  let amplitude' := amplitude a * persistence in
  let frequency' := frequency a * lacunarity in
  FbmAcc total' amplitude' frequency' maxValue'.

Fixpoint fbm_loop (n : nat) (x y lacunarity persistence : R) (a : fbm_acc) : fbm_acc :=
  match n with
  | O => a
  | S k => fbm_loop k x y lacunarity persistence (fbm_body x y lacunarity persistence a)
  end.

Definition FBM (x y : R) (octaves : nat) (lacunarity persistence : R) : R :=
  let a := fbm_loop octaves x y lacunarity persistence (FbmAcc 0 1 1 0) in
  let fbmValue := total a / maxValue a in
  (fbmValue + 1) * 0.5.

Definition GenerateHeightMap (textureSize : nat) (scale : R) (octaves : nat)
    (persistence lacunarity : R) : list Z :=
  let heightMap := replicate (textureSize * textureSize) 0%Z in
  for_range 0 textureSize (fun y heightMap =>
    for_range 0 textureSize (fun x heightMap =>
      let dx := INR x * scale in
      let dy := INR y * scale in
      let noiseValue := FBM dx dy octaves lacunarity persistence in
      <[ (y * textureSize + x)%nat := uchar_cast (noiseValue * 255) ]> heightMap)
      heightMap)
    heightMap.

(** The call of [main], with the default arguments of the prototype. *)
Definition GenerateHeightMap_default (textureSize : nat) : list Z :=
  GenerateHeightMap textureSize 0.005 6 0.5 2.

(** The heightmap synthesizer as the specification words it: the sum of
    the octaves [noise(x*freq_i, y*freq_i) * amp_i] with
    [freq_i = lacunarity^i] and [amp_i = persistence^i], divided by the
    sum of the amplitudes, remapped by [(v+1)/2]. *)
Definition fbm_spec (x y : R) (octaves : nat) (lacunarity persistence : R) : R :=
  let acc := Rsum octaves (fun i =>
               noise (x * lacunarity ^ i) (y * lacunarity ^ i) * persistence ^ i) in
  let amps := Rsum octaves (fun i => persistence ^ i) in
  (acc / amps + 1) / 2.

Definition height_spec (scale : R) (octaves : nat) (persistence lacunarity : R)
    (x y : nat) : R :=
  fbm_spec (INR x * scale) (INR y * scale) octaves lacunarity persistence.

End WithNoise.

(** A height sample as [GenerateNormalMap] reads it: [heightMap[i] / 255.0f].
    An index outside the vector (undefined in C++) reads 0. *)
Definition height_at (heightMap : list Z) (i : nat) : R :=
  IZR (default 0%Z (heightMap !! i)) / 255.

Definition GenerateNormalMap (heightMap : list Z) (textureSize : nat) : list vec3 :=
  let normalMap := replicate (List.length heightMap) vec3_zero in
  for_range 1 (textureSize - 1) (fun y normalMap =>
    for_range 1 (textureSize - 1) (fun x normalMap =>
      let heightLeft := height_at heightMap (y * textureSize + (x - 1)) in
      let heightRight := height_at heightMap (y * textureSize + (x + 1)) in
      let heightDown := height_at heightMap ((y + 1) * textureSize + x) in
      let heightUp := height_at heightMap ((y - 1) * textureSize + x) in
      let dx := heightLeft - heightRight in
      let dy := heightUp - heightDown in
      let normal := normalize (Vec3 dx dy 1) in
      <[ (y * textureSize + x)%nat := vadds (vscale normal 0.5) 0.5 ]> normalMap)
      normalMap)
    normalMap.

(** The normal of the grid point (x, y) as the specification words it:
    central differences of the heights [h(i, j) = heightMap[j * size + i] / 255],
    normalised with a z component of 1. *)
Definition normal_spec (heightMap : list Z) (textureSize x y : nat) : vec3 :=
  let h := fun i j => height_at heightMap (j * textureSize + i) in
  let dx := h (x - 1)%nat y - h (x + 1)%nat y in
  let dy := h x (y - 1)%nat - h x (y + 1)%nat in
  normalize (Vec3 dx dy 1).

(** Grid points that are not on the outermost rows and columns. *)
Definition interior (textureSize x y : nat) : Prop :=
  (1 <= x <= textureSize - 2)%nat /\ (1 <= y <= textureSize - 2)%nat.

Definition border (textureSize x y : nat) : Prop :=
  (x < textureSize)%nat /\ (y < textureSize)%nat /\
  (x = 0 \/ y = 0 \/ x = textureSize - 1 \/ y = textureSize - 1)%nat.

End Terrain.

(** ** The bloom blur stage of the render loop *)
Module Bloom.

(** The textures and framebuffers the post-processing passes bind.  The
    two-element arrays are indexed by a [bool], as the program does with
    [pingpongFBO[horizontal]]: [false] is index 0 and [true] is index 1.
    [pingpongColorbuffers[i]] is the colour attachment of
    [pingpongFBO[i]]. *)
Inductive texture : Type :=
| colorBuffer (i : bool)
| downSampledTex
| pingpongColorbuffers (i : bool)
| colorGradientTex
| lensDirtTex
| starBurstTex.

Inductive framebuffer : Type :=
| hdrFBO
| downSampledFBO
| pingpongFBO (i : bool).

(** The texture a framebuffer renders into (for [hdrFBO], its first
    attachment). *)
Definition attachment (f : framebuffer) : texture :=
  match f with
  | hdrFBO => colorBuffer false
  | downSampledFBO => downSampledTex
  | pingpongFBO i => pingpongColorbuffers i
  end.

(** One blur draw call: the framebuffer bound for writing, the value of
    the [horizontal] uniform and the texture bound for reading. *)
Record blur_pass : Type := BlurPass {
  bp_target : framebuffer;
  bp_horizontal : bool;
  bp_source : texture
}.

(** The two locals of the blur loop. *)
Record blur_state : Type := BlurState {
  horizontal : bool;
  first_iteration : bool
}.

Definition blur_init : blur_state := BlurState true true.

(** The body of [for (unsigned int i = 0; i < amount; i++)]. *)
Definition blur_body (s : blur_state) : blur_pass * blur_state :=
  let pass := BlurPass (pingpongFBO (horizontal s)) (horizontal s)
                (if first_iteration s then downSampledTex
                 else pingpongColorbuffers (negb (horizontal s))) in
  let horizontal' := negb (horizontal s) in
  let first_iteration' := if first_iteration s then false else first_iteration s in
  (pass, BlurState horizontal' first_iteration').

(** The loop: the draw calls it issues, in order, and the locals after it. *)
Fixpoint blur_loop (amount : nat) (s : blur_state) : list blur_pass * blur_state :=
  match amount with
  | O => ([], s)
  | S k =>
      let '(pass, s1) := blur_body s in
      let '(passes, s2) := blur_loop k s1 in
      (pass :: passes, s2)
  end.

(** [const float gaussianBlurIntensity = 100.0f], converted to
    [unsigned int amount]. *)
Definition gaussianBlurIntensity : nat := 100.

(** The blur stage run with [amount] iterations. *)
Definition blur_stage (amount : nat) : list blur_pass * blur_state :=
  blur_loop amount blur_init.

(** The texture the composite pass binds on unit 1 ([bloomBlur]) after
    the loop: [pingpongColorbuffers[!horizontal]]. *)
Definition composite_bloom_input (amount : nat) : texture :=
  pingpongColorbuffers (negb (horizontal (snd (blur_stage amount)))).

(** The texture read by the first draw call of the stage. *)
Definition first_source (amount : nat) : option texture :=
  bp_source <$> head (fst (blur_stage amount)).

(** The texture written by the last draw call of the stage. *)
Definition last_written (amount : nat) : option texture :=
  (fun p => attachment (bp_target p)) <$> last (fst (blur_stage amount)).

(** The boundary property as the specification states it: whatever two
    iteration counts of at least 1 are compared, the first blur pass
    reads the downsampled target and the composite pass is handed the
    same bloom texture. *)
Definition boundaries_independent_of_amount : Prop :=
  forall n m : nat, (1 <= n)%nat -> (1 <= m)%nat ->
    first_source n = Some downSampledTex /\
    first_source m = Some downSampledTex /\
    composite_bloom_input n = composite_bloom_input m.

End Bloom.

(** ** The sun controller *)
Module Sun.
Import Glm.

(** *** Globals that are constants *)
Definition bloomFactor : R := 5.
Definition WHITE : vec3 := vscale (Vec3 1 0.85 0.55) bloomFactor.
Definition ORANGE : vec3 := vscale (Vec3 1 0.5 0.05) bloomFactor.
Definition maxExposure : R := 0.75.
Definition minExposure : R := 0.05.
Definition sunRadius : R := 1.7.
(** [sunDesiredSpeed] and [idleTime] are not [const], but nothing assigns
    them. *)
Definition sunDesiredSpeed : R := 0.4.
Definition idleTime : R := 1.
(** [const bool bIsSunStationary = false]; [AnimateSun] below takes the
    flag as an argument so that the stationary path is covered too. *)
Definition bIsSunStationary : bool := false.

(** *** Globals that [AnimateSun] reads and writes *)
Record SunState : Type := MkSun {
  lightPos : vec3;
  lightDiffuse : vec3;
  exposure : R;
  sunAngle : R;
  sunVel : R;
  timer : R;
  bReverseSun : bool;
  bWaiting : bool
}.

(** Their initialisers. *)
Definition initial : SunState :=
  MkSun (Vec3 0 0.1 0) WHITE maxExposure 999.99 0 0 false false.

Definition EaseInOutSine (x : R) : R := - (cos (PI * x) - 1) / 2.

(** The [if (bWaiting)] branch. *)
Definition wait_update (deltaTime : R) (s : SunState) : SunState :=
  let timer' := timer s + deltaTime in
  if Rgeb timer' idleTime
  then MkSun (lightPos s) (lightDiffuse s) (exposure s) (sunAngle s) (sunVel s)
             0 (bReverseSun s) false
  else MkSun (lightPos s) (lightDiffuse s) (exposure s) (sunAngle s) (sunVel s)
             timer' (bReverseSun s) (bWaiting s).

(** The angle between the light direction and the diagonal (1, 0, 1). *)
Definition light_angle (p : vec3) : R :=
  degrees (acos (dot (normalize p) (normalize (Vec3 1 0 1)))).

(** The [else] branch: the sun is in motion.  (The write of the
    [glowColor] uniform is a copy of [lightDiffuse] and is left out.) *)
Definition move_update (deltaTime : R) (s : SunState) : SunState :=
  let sunAngle' := light_angle (lightPos s) in
  let dir := if bReverseSun s then -1 else 1 in
  let targetSpeed := sunDesiredSpeed * dir in
  let '(sunVel', lightDiffuse', exposure') :=
    if (Rltb sunAngle' 89.9 && negb (bReverseSun s))
       || (Rgtb sunAngle' 90.1 && bReverseSun s)
    then (* approaching the horizon *)
      (sunVel s + mix (deltaTime * sunDesiredSpeed * dir) 0 (EaseInOutSine deltaTime * 120),
       mix3 (lightDiffuse s) ORANGE (EaseInOutSine deltaTime * 10),
       mix (exposure s) minExposure (EaseInOutSine deltaTime * 10))
    else (* approaching the zenith *)
      (sunVel s + mix (deltaTime * sunDesiredSpeed * dir) targetSpeed (EaseInOutSine deltaTime * 3),
       mix3 (lightDiffuse s) WHITE (EaseInOutSine deltaTime * 10),
       mix (exposure s) maxExposure (EaseInOutSine deltaTime * 10)) in
  let x := sunRadius * - cos sunVel' in
  let z := sunRadius * - cos sunVel' in
  let y := sunRadius * sin sunVel' in
  MkSun (Vec3 x y z) lightDiffuse' exposure' sunAngle' sunVel'
        (timer s) (bReverseSun s) (bWaiting s).

(** "Check if sun is at either horizon". *)
Definition horizon_check (s : SunState) : SunState :=
  if Rltb (sunAngle s) 5 && negb (bReverseSun s)
  then MkSun (lightPos s) (lightDiffuse s) (exposure s) (sunAngle s) (sunVel s)
             (timer s) true true
  else if Rgtb (sunAngle s) 175 && bReverseSun s
  then MkSun (lightPos s) (lightDiffuse s) (exposure s) (sunAngle s) (sunVel s)
             (timer s) false true
  else s.

(** One call of [AnimateSun] in a frame whose elapsed time is
    [deltaTime]. *)
Definition AnimateSun (stationary : bool) (deltaTime : R) (s : SunState) : SunState :=
  if stationary
  then MkSun (Vec3 1 0.75 1) (lightDiffuse s) (exposure s) (sunAngle s) (sunVel s)
             (timer s) (bReverseSun s) (bWaiting s)
  else
    horizon_check
      (if bWaiting s then wait_update deltaTime s else move_update deltaTime s).

(** The frames of the render loop, one [deltaTime] each. *)
Definition run (stationary : bool) (deltaTimes : list R) (s : SunState) : SunState :=
  fold_left (fun acc dt => AnimateSun stationary dt acc) deltaTimes s.

(** The phase of the controller, as the specification names it. *)
Inductive Phase : Type := Stationary | Moving | Waiting.

Definition phase (stationary : bool) (s : SunState) : Phase :=
  if stationary then Stationary
  else if bWaiting s then Waiting else Moving.

(** The angle that the horizon check of an update looks at: the one
    computed by this update from the light position when the sun is in
    motion, the stored one while it waits. *)
Definition checked_angle (s : SunState) : R :=
  if bWaiting s then sunAngle s else light_angle (lightPos s).

(** A waiting sun stands at the horizon it reached, already turned round. *)
Definition waiting_consistent (s : SunState) : Prop :=
  bWaiting s = true ->
  (sunAngle s < 5 /\ bReverseSun s = true) \/
  (sunAngle s > 175 /\ bReverseSun s = false).

Definition exposure_in_bounds (s : SunState) : Prop :=
  minExposure <= exposure s <= maxExposure.

End Sun.

(** ** More of GLM: vector sums, the cross product, radians *)
Module GlmVec.
Import Glm.

Definition vadd (a b : vec3) : vec3 := Vec3 (vx a + vx b) (vy a + vy b) (vz a + vz b).
Definition vsub (a b : vec3) : vec3 := Vec3 (vx a - vx b) (vy a - vy b) (vz a - vz b).

(** [glm::cross(x, y)]. *)
Definition cross (x y : vec3) : vec3 :=
  Vec3 (vy x * vz y - vy y * vz x)
       (vz x * vx y - vz y * vx x)
       (vx x * vy y - vx y * vy x).

(** [glm::radians(d)]. *)
Definition radians (d : R) : R := d * (PI / 180).

End GlmVec.

(** ** The draw calls of one iteration of the render loop *)
Module Frame.
Import Bloom.

(** Textures created before the loop that the scene draws sample. *)
Inductive asset : Type :=
| diffuseMapTextureRocks
| diffuseMapTextureSnow
| normalMapTexture
| heightMapTexture
| skyboxTexture.

(** What a draw call binds for sampling. *)
Inductive sampler : Type :=
| Target (t : texture)
| Asset (a : asset).

(** A draw call: the framebuffer bound while it runs ([None] is the
    default framebuffer 0, the window) and the textures bound for it. *)
Record draw : Type := Draw {
  d_target : option framebuffer;
  d_samples : list sampler
}.

(** The textures a draw call into a framebuffer renders.  [hdrFBO] has two
    colour attachments, both enabled by [glDrawBuffers]. *)
Definition rendered_by (target : option framebuffer) : list texture :=
  match target with
  | Some hdrFBO => [colorBuffer false; colorBuffer true]
  | Some downSampledFBO => [downSampledTex]
  | Some (pingpongFBO i) => [pingpongColorbuffers i]
  | None => []
  end.

(** Textures that are attachments of a framebuffer, as opposed to images
    loaded from files. *)
Definition is_render_target (t : texture) : bool :=
  match t with
  | colorBuffer _ | downSampledTex | pingpongColorbuffers _ => true
  | colorGradientTex | lensDirtTex | starBurstTex => false
  end.

(** The draw calls of one frame, in the order [main] issues them, with
    [amount] blur iterations: [RenderProceduralTerrain], [RenderSun] and
    [RenderSkybox] into [hdrFBO], the downsample of [colorBuffer[1]], the
    blur loop, and the composite pass to the window. *)
Definition frame_draws (amount : nat) : list draw :=
  [ Draw (Some hdrFBO) [Asset diffuseMapTextureRocks; Asset diffuseMapTextureSnow;
                        Asset normalMapTexture; Asset heightMapTexture];
    Draw (Some hdrFBO) [];
    Draw (Some hdrFBO) [Asset skyboxTexture];
    Draw (Some downSampledFBO) [Target (colorBuffer true)] ]
  ++ List.map (fun p => Draw (Some (bp_target p)) [Target (bp_source p)])
              (fst (blur_stage amount))
  ++ [ Draw None [Target (colorBuffer false);
                  Target (composite_bloom_input amount);
                  Target downSampledTex;
                  Target colorGradientTex;
                  Target lensDirtTex;
                  Target starBurstTex] ].

(** Every framebuffer attachment a draw call samples has been rendered by
    an earlier draw call of the list. *)
Definition fed_by_earlier (ds : list draw) : Prop :=
  forall (before after : list draw) (d : draw) (t : texture),
    ds = before ++ d :: after ->
    In (Target t) (d_samples d) ->
    is_render_target t = true ->
    exists d', In d' before /\ In t (rendered_by (d_target d')).

#[global] Instance texture_eq_dec : EqDecision texture.
Proof. solve_decision. Defined.

(** The same, as a check that runs down the list with the textures rendered
    so far. *)
Definition sample_fed (rendered : list texture) (s : sampler) : bool :=
  match s with
  | Target t => negb (is_render_target t) || bool_decide (t ∈ rendered)
  | Asset _ => true
  end.

Fixpoint fed (rendered : list texture) (ds : list draw) : bool :=
  match ds with
  | [] => true
  | d :: ds' =>
      forallb (sample_fed rendered) (d_samples d)
      && fed (rendered_by (d_target d) ++ rendered) ds'
  end.

(** What the blur loop needs from the textures rendered before it. *)
Definition blur_fed (s : blur_state) (rendered : list texture) : Prop :=
  if first_iteration s then downSampledTex ∈ rendered
  else pingpongColorbuffers (negb (horizontal s)) ∈ rendered.

(** [postProcessShader.setFloat("aspectRatio", SCR_WIDTH / SCR_HEIGHT)]: both
    operands are [unsigned int], the quotient is converted to [float]. *)
Definition aspectRatio_uniform (width height : Z) : R := IZR (width / height).

(** [(float)SCR_WIDTH / (float)SCR_HEIGHT], the aspect of the projection. *)
Definition projection_aspect (width height : Z) : R := IZR width / IZR height.

Definition SCR_WIDTH : Z := 1920.
Definition SCR_HEIGHT : Z := 1080.

End Frame.

(** ** The camera: [mouse_callback] and [ProcessInput] *)
Module Camera.
Import Glm GlmVec.

Definition cameraUp : vec3 := Vec3 0 1 0.
Definition cameraSensitivity : R := 0.1.

(** The globals [mouse_callback] reads and writes. *)
Record MouseState : Type := MkMouse {
  firstMouse : bool;
  lastX : R;
  lastY : R;
  yaw : R;
  pitch : R;
  cameraFront : vec3
}.

(** Their initialisers ([lastX] and [lastY] are the middle of the
    1920 x 1080 screen). *)
Definition mouse_initial : MouseState :=
  MkMouse true 960 540 (-45) (-45) (Vec3 0.51 (-0.66) (-0.55)).

Definition mouse_callback (xpos ypos : R) (s : MouseState) : MouseState :=
  let lastX0 := if firstMouse s then xpos else lastX s in
  let lastY0 := if firstMouse s then ypos else lastY s in
  let xoffset := xpos - lastX0 in
  let yoffset := lastY0 - ypos in
  let xoffset := xoffset * cameraSensitivity in
  let yoffset := yoffset * cameraSensitivity in
  let yaw' := yaw s + xoffset in
  let pitch' := pitch s + yoffset in
  let pitch' := if Rgtb pitch' 89 then 89 else pitch' in
  let pitch' := if Rltb pitch' (-89) then -89 else pitch' in
  let direction :=
    Vec3 (cos (radians yaw') * cos (radians pitch'))
         (sin (radians pitch'))
         (sin (radians yaw') * cos (radians pitch')) in
  MkMouse false xpos ypos yaw' pitch' (normalize direction).

(** The cursor positions of a sequence of mouse events, oldest first. *)
Definition mouse_events (events : list (R * R)) (s : MouseState) : MouseState :=
  fold_left (fun acc e => mouse_callback (fst e) (snd e) acc) events s.

(** What [glfwGetKey] returns. *)
Inductive key_action : Type := GLFW_RELEASE | GLFW_PRESS.

Definition pressed (a : key_action) : bool :=
  match a with GLFW_PRESS => true | GLFW_RELEASE => false end.

(** The keys [ProcessInput] polls. *)
Record Keys : Type := MkKeys {
  KEY_ESCAPE : key_action;
  KEY_W : key_action;
  KEY_A : key_action;
  KEY_S : key_action;
  KEY_D : key_action;
  KEY_LEFT_SHIFT : key_action
}.

(** The globals [ProcessInput] writes, and the close flag of the window. *)
Record CameraState : Type := MkCamera {
  cameraPos : vec3;
  cameraSpeed : R;
  windowShouldClose : bool
}.

Definition camera_initial : CameraState :=
  MkCamera (Vec3 (-3.08) 3.07 3.26) 2.5 false.

Definition ProcessInput (keys : Keys) (front : vec3) (deltaTime : R)
    (c : CameraState) : CameraState :=
  let close := if pressed (KEY_ESCAPE keys) then true else windowShouldClose c in
  let speed := cameraSpeed c in
  let pos := cameraPos c in
  let pos := if pressed (KEY_W keys)
             then vadd pos (vscale (vscale front speed) deltaTime) else pos in
  let pos := if pressed (KEY_A keys)
             then vsub pos (vscale (vscale (normalize (cross front cameraUp)) speed) deltaTime)
             else pos in
  let pos := if pressed (KEY_S keys)
             then vsub pos (vscale (vscale front speed) deltaTime) else pos in
  let pos := if pressed (KEY_D keys)
             then vadd pos (vscale (vscale (normalize (cross front cameraUp)) speed) deltaTime)
             else pos in
  let speed' := match KEY_LEFT_SHIFT keys with
                | GLFW_PRESS => 10
                | GLFW_RELEASE => 2.5
                end in
  MkCamera pos speed' close.

End Camera.

(** ** [GenerateNormalMap] with its element accesses checked *)
Module TerrainChecked.
Import Glm Terrain.

(** The body of the inner loop of [GenerateNormalMap], with every
    [heightMap[i]] and the [normalMap[i] = ...] of the source checked
    against the size of its vector: [None] stands for an access outside
    the vector, which C++ leaves undefined. *)
Definition normal_step (heightMap : list Z) (textureSize x y : nat)
    (normalMap : list vec3) : option (list vec3) :=
  heightLeft ← heightMap !! (y * textureSize + (x - 1))%nat;
  heightRight ← heightMap !! (y * textureSize + (x + 1))%nat;
  heightDown ← heightMap !! ((y + 1) * textureSize + x)%nat;
  heightUp ← heightMap !! ((y - 1) * textureSize + x)%nat;
  let dx := IZR heightLeft / 255 - IZR heightRight / 255 in
  let dy := IZR heightUp / 255 - IZR heightDown / 255 in
  let normal := normalize (Vec3 dx dy 1) in
  if decide (y * textureSize + x < List.length normalMap)%nat
  then Some (<[ (y * textureSize + x)%nat := vadds (vscale normal 0.5) 0.5 ]> normalMap)
  else None.

Definition GenerateNormalMap_checked (heightMap : list Z) (textureSize : nat)
    : option (list vec3) :=
  let normalMap := replicate (List.length heightMap) vec3_zero in
  for_range 1 (textureSize - 1) (fun y acc =>
    for_range 1 (textureSize - 1) (fun x acc =>
      acc ≫= normal_step heightMap textureSize x y) acc)
    (Some normalMap).

End TerrainChecked.

(** ** The frame clock of the render loop *)
Module Clock.

(** The globals [deltaTime] and [lastFrame]. *)
Record ClockState : Type := MkClock {
  deltaTime : R;
  lastFrame : R
}.

Definition clock_initial : ClockState := MkClock 0 0.

(** "Calculate delta time", with [currentFrame] the value of
    [glfwGetTime()], the seconds since GLFW was initialised. *)
Definition tick (currentFrame : R) (s : ClockState) : ClockState :=
  let deltaTime' := currentFrame - lastFrame s in
  MkClock deltaTime' currentFrame.

(** The [deltaTime] of each frame of a loop that reads the given times. *)
Fixpoint frame_deltas (times : list R) (s : ClockState) : list R :=
  match times with
  | [] => []
  | t :: times' => deltaTime (tick t s) :: frame_deltas times' (tick t s)
  end.

Definition total (deltas : list R) : R := fold_right Rplus 0 deltas.

End Clock.

(** * Properties *)

(** ** Loops that fill a vector *)
Section Writers.
Context {A : Type}.
Implicit Types (m : list A) (val : nat -> A).

Lemma writes_insert (i : nat) (v : A) val :
  val i = v -> writes (fun m => <[i:=v]> m) (fun j => j = i) val.
Proof.
  intros Hv m. split; [apply length_insert|]. split; [|split].
  - intros j Hj. apply list_lookup_insert_ne. congruence.
  - intros j -> Hlt. rewrite <- Hv. by apply list_lookup_insert_eq.
  - intros j Hj. destruct (decide (i = j)) as [->|Hne].
    + rewrite list_lookup_insert_eq; [by rewrite Hv|].
      by apply lookup_lt_is_Some; eexists.
    + by rewrite list_lookup_insert_ne.
Qed.

Lemma writes_fold (body : nat -> list A -> list A) (dom : nat -> nat -> Prop) val
    (ks : list nat) :
  (forall k, In k ks -> writes (body k) (dom k) val) ->
  writes (fun m => fold_left (fun acc k => body k acc) ks m)
         (fun j => exists k, In k ks /\ dom k j) val.
Proof.
  induction ks as [|k ks IH]; intros Hb m; simpl.
  - split; [done|]. split; [done|]. split; [|done]. intros j [k [[] _]].
  - destruct (Hb k (or_introl eq_refl) m) as (Hlen & Hout & Hin & Hkeep).
    destruct (IH (fun k' Hk' => Hb k' (or_intror Hk')) (body k m))
      as (Hlen' & Hout' & Hin' & Hkeep').
    split; [congruence|]. split; [|split].
    + intros j Hj. rewrite Hout'.
      * apply Hout. intros Hd. apply Hj. exists k. auto.
      * intros (k' & Hk' & Hd). apply Hj. exists k'. auto.
    + intros j (k' & [->|Hk'] & Hd) Hlt.
      * apply Hkeep'. by apply Hin.
      * apply Hin'; [eauto|]. by rewrite Hlen.
    + intros j Hj. apply Hkeep'. by apply Hkeep.
Qed.

Lemma writes_for_range (lo hi : nat) (body : nat -> list A -> list A)
    (dom : nat -> nat -> Prop) val :
  (forall k, (lo <= k < hi)%nat -> writes (body k) (dom k) val) ->
  writes (for_range lo hi body)
         (fun j => exists k, (lo <= k < hi)%nat /\ dom k j) val.
Proof.
  intros Hb m. unfold for_range.
  destruct (writes_fold body dom val (seq lo (hi - lo))) with (m := m)
    as (Hlen & Hout & Hin & Hkeep).
  { intros k Hk. apply Hb. apply in_seq in Hk. lia. }
  split; [done|]. split; [|split; [|done]].
  - intros j Hj. apply Hout. intros (k & Hk & Hd). apply Hj.
    exists k. split; [|done]. apply in_seq in Hk. lia.
  - intros j (k & Hk & Hd) Hlt. apply Hin; [|done].
    exists k. split; [|done]. apply in_seq. lia.
Qed.

(** The doubly nested loop over rows [y] and columns [x] that stores at
    [y * size + x]. *)
Lemma writes_grid (size ylo yhi xlo xhi : nat) (f : nat -> nat -> A) :
  (xhi <= size)%nat ->
  writes
    (for_range ylo yhi (fun y acc =>
       for_range xlo xhi (fun x acc => <[(y * size + x)%nat := f x y]> acc) acc))
    (fun j => exists y, (ylo <= y < yhi)%nat /\
              exists x, (xlo <= x < xhi)%nat /\ j = (y * size + x)%nat)
    (fun j => f (j mod size)%nat (j / size)%nat).
Proof.
  intros Hx.
  apply (writes_for_range ylo yhi _
           (fun y j => exists x, (xlo <= x < xhi)%nat /\ j = (y * size + x)%nat)).
  intros y Hy.
  apply (writes_for_range xlo xhi _ (fun x j => j = (y * size + x)%nat)).
  intros x Hxr. apply writes_insert.
  assert (x < size)%nat by lia.
  rewrite (Nat.add_comm (y * size) x).
  rewrite Nat.Div0.mod_add, Nat.div_add by lia.
  rewrite Nat.mod_small, Nat.div_small by lia. done.
Qed.

End Writers.

(** ** Finite sums *)

Lemma Rsum_ext (n : nat) (f g : nat -> R) :
  (forall i, (i < n)%nat -> f i = g i) -> Rsum n f = Rsum n g.
Proof.
  induction n as [|n IH]; intros H; simpl; [done|].
  rewrite IH, (H n) by (intros; try apply H; lia). done.
Qed.

Lemma Rsum_shift (n : nat) (f : nat -> R) :
  Rsum (S n) f = f O + Rsum n (fun i => f (S i)).
Proof.
  induction n as [|n IH]; [simpl; ring|].
  change (Rsum (S (S n)) f) with (Rsum (S n) f + f (S n)).
  rewrite IH. simpl. ring.
Qed.

(** ** The heightmap synthesizer *)
Section TerrainFacts.
Import Glm Terrain.
Variable noise : R -> R -> R.

(** The locals of [FBM] after [n] iterations, in closed form. *)
Lemma fbm_loop_closed (n : nat) (x y lac pers : R) (a : fbm_acc) :
  fbm_loop noise n x y lac pers a =
  FbmAcc
    (total a + Rsum n (fun i =>
       noise (x * (frequency a * lac ^ i)) (y * (frequency a * lac ^ i))
       * (amplitude a * pers ^ i)))
    (amplitude a * pers ^ n)
    (frequency a * lac ^ n)
    (maxValue a + Rsum n (fun i => amplitude a * pers ^ i)).
Proof.
  revert a. induction n as [|n IH]; intros [t am fr mx].
  - simpl. f_equal; ring.
  - change (fbm_loop noise (S n) x y lac pers (FbmAcc t am fr mx))
      with (fbm_loop noise n x y lac pers
              (fbm_body noise x y lac pers (FbmAcc t am fr mx))).
    rewrite IH. unfold fbm_body. cbn [total amplitude frequency maxValue].
    rewrite !(Rsum_shift n). cbn [pow].
    f_equal; try ring.
    + rewrite !Rmult_1_r, Rplus_assoc. do 2 f_equal.
      apply Rsum_ext. intros i _.
      replace (fr * lac * lac ^ i) with (fr * (lac * lac ^ i)) by ring.
      replace (am * pers * pers ^ i) with (am * (pers * pers ^ i)) by ring.
      done.
    + rewrite Rmult_1_r, Rplus_assoc. do 2 f_equal.
      apply Rsum_ext. intros i _. ring.
Qed.

(** The loop of [FBM] computes the formula of the specification. *)
Lemma FBM_fbm_spec (x y : R) (octaves : nat) (lac pers : R) :
  FBM noise x y octaves lac pers = fbm_spec noise x y octaves lac pers.
Proof.
  unfold FBM, fbm_spec. rewrite fbm_loop_closed.
  cbn [total amplitude frequency maxValue].
  rewrite !Rplus_0_l.
  rewrite (Rsum_ext octaves (fun i => 1 * pers ^ i) (fun i => pers ^ i))
    by (intros; ring).
  rewrite (Rsum_ext octaves
             (fun i => noise (x * (1 * lac ^ i)) (y * (1 * lac ^ i)) * (1 * pers ^ i))
             (fun i => noise (x * lac ^ i) (y * lac ^ i) * pers ^ i))
    by (intros; rewrite !Rmult_1_l; done).
  lra.
Qed.

(** Loop invariant of [FBM]: the amplitude stays non-negative and the
    accumulated total stays within the accumulated amplitudes. *)
Lemma fbm_loop_bounded (n : nat) (x y lac pers : R) (a : fbm_acc) :
  (forall u v, -1 <= noise u v <= 1) ->
  0 <= pers ->
  0 <= amplitude a ->
  - maxValue a <= total a <= maxValue a ->
  let r := fbm_loop noise n x y lac pers a in
  0 <= amplitude r /\ - maxValue r <= total r <= maxValue r /\
  maxValue a <= maxValue r.
Proof.
  intros Hn Hp. revert a. induction n as [|n IH]; intros a Ha Hb; simpl.
  - repeat split; lra.
  - destruct (IH (fbm_body noise x y lac pers a)) as (H1 & H2 & H3).
    + unfold fbm_body; simpl. nra.
    + unfold fbm_body; simpl.
      pose proof (Hn (x * frequency a) (y * frequency a)). nra.
    + set (r := fbm_loop noise n x y lac pers _) in *.
      unfold fbm_body in H3; simpl in H3. repeat split; lra.
Qed.

Lemma FBM_bounds (x y : R) (octaves : nat) (lac pers : R) :
  (forall u v, -1 <= noise u v <= 1) ->
  (1 <= octaves)%nat ->
  0 <= pers ->
  0 <= FBM noise x y octaves lac pers <= 1.
Proof.
  intros Hn Ho Hp. destruct octaves as [|k]; [lia|].
  unfold FBM.
  change (fbm_loop noise (S k) x y lac pers (FbmAcc 0 1 1 0))
    with (fbm_loop noise k x y lac pers
            (fbm_body noise x y lac pers (FbmAcc 0 1 1 0))).
  destruct (fbm_loop_bounded k x y lac pers
              (fbm_body noise x y lac pers (FbmAcc 0 1 1 0)) Hn Hp)
    as (_ & Hb & Hm).
  - unfold fbm_body; simpl. lra.
  - unfold fbm_body; simpl. pose proof (Hn (x * 1) (y * 1)). lra.
  - set (r := fbm_loop noise k x y lac pers _) in *.
    unfold fbm_body in Hm; simpl in Hm.
    assert (HM : 0 < maxValue r) by lra.
    assert (Hq : total r = total r / maxValue r * maxValue r) by (field; lra).
    set (q := total r / maxValue r) in *. cbv zeta. nra.
Qed.

(** The cast to [unsigned char] of a value in 0..255 is its floor. *)
Lemma uchar_cast_floor (r : R) :
  0 <= r <= 255 ->
  uchar_cast r = Zfloor r /\ (0 <= Zfloor r <= 255)%Z.
Proof.
  intros [H0 H1]. unfold uchar_cast, Ztrunc.
  destruct (Rle_dec 0 r) as [_|]; [|lra].
  assert (0 <= Zfloor r)%Z by (apply Zfloor_lub; simpl; lra).
  assert (Zfloor r <= 255)%Z.
  { apply le_IZR. pose proof (Zfloor_bound r). lra. }
  split; [|lia]. apply Z.mod_small. lia.
Qed.

(** The two loops of [GenerateHeightMap] store, at [y * textureSize + x],
    the byte of [FBM] at the scaled coordinates. *)
Lemma GenerateHeightMap_writes (textureSize : nat) (scale : R) (octaves : nat)
    (pers lac : R) :
  let hm := GenerateHeightMap noise textureSize scale octaves pers lac in
  List.length hm = (textureSize * textureSize)%nat /\
  forall x y, (x < textureSize)%nat -> (y < textureSize)%nat ->
    hm !! (y * textureSize + x)%nat =
    Some (uchar_cast (FBM noise (INR x * scale) (INR y * scale) octaves lac pers * 255)).
Proof.
  cbv zeta. unfold GenerateHeightMap.
  destruct (writes_grid textureSize 0 textureSize 0 textureSize
              (fun x y => uchar_cast
                 (FBM noise (INR x * scale) (INR y * scale) octaves lac pers * 255))
              (Nat.le_refl _) (replicate (textureSize * textureSize) 0%Z))
    as (Hlen & _ & Hin & _).
  split.
  - rewrite Hlen. apply length_replicate.
  - intros x y Hx Hy. rewrite Hin.
    + rewrite (Nat.add_comm (y * textureSize) x).
      rewrite Nat.Div0.mod_add, Nat.div_add by lia.
      rewrite Nat.mod_small, Nat.div_small by lia. done.
    + exists y. split; [lia|]. exists x. split; [lia|done].
    + rewrite length_replicate. nia.
Qed.

End TerrainFacts.

(** C1. For every texture size of at least 1 and all parameters (scale, at
    least one octave, persistence, lacunarity), [GenerateHeightMap] returns
    a grid of [textureSize * textureSize] bytes whose cell (x, y), stored at
    [y * textureSize + x], is the cast to a byte of 255 times the value the
    specification describes: the octave sum of
    [noise(x*scale*freq, y*scale*freq) * amplitude], with [freq] multiplied
    by the lacunarity and [amplitude] by the persistence at each octave,
    divided by the sum of the amplitudes and remapped by [(v+1)/2].  For a
    noise primitive with values in [-1, 1] and a persistence that is not
    negative, that value [v] lies in [0, 1] and the byte is
    [floor(v * 255)].  The grid is
    a function of the arguments and of the pure noise primitive only, so
    recomputing the formula reproduces it. *)
Theorem GenerateHeightMap_matches_spec (noise : R -> R -> R) (textureSize : nat)
    (scale : R) (octaves : nat) (persistence lacunarity : R) :
  (1 <= textureSize)%nat ->
  (1 <= octaves)%nat ->
  let hm := Terrain.GenerateHeightMap noise textureSize scale octaves persistence lacunarity in
  List.length hm = (textureSize * textureSize)%nat /\
  forall x y, (x < textureSize)%nat -> (y < textureSize)%nat ->
    let v := Terrain.height_spec noise scale octaves persistence lacunarity x y in
    hm !! (y * textureSize + x)%nat = Some (Terrain.uchar_cast (v * 255)) /\
    ((forall a b, -1 <= noise a b <= 1) -> 0 <= persistence ->
       0 <= v <= 1 /\
       hm !! (y * textureSize + x)%nat = Some (Zfloor (v * 255)) /\
       (0 <= Zfloor (v * 255) <= 255)%Z).
Proof.
  intros Hsize Hoct hm.
  destruct (GenerateHeightMap_writes noise textureSize scale octaves persistence lacunarity)
    as [Hlen Hcell].
  split; [exact Hlen|].
  intros x y Hx Hy v. subst hm. rewrite (Hcell x y Hx Hy).
  unfold v, Terrain.height_spec. rewrite FBM_fbm_spec.
  split; [reflexivity|].
  intros Hnoise Hpers.
  pose proof (FBM_bounds noise (INR x * scale) (INR y * scale) octaves lacunarity
                persistence Hnoise Hoct Hpers) as Hb.
  rewrite FBM_fbm_spec in Hb.
  split; [exact Hb|].
  destruct (uchar_cast_floor
              (Terrain.fbm_spec noise (INR x * scale) (INR y * scale) octaves
                 lacunarity persistence * 255)) as [Hc Hr]; [lra|].
  rewrite Hc. split; [reflexivity|exact Hr].
Qed.

(** The scenario of the specification, [generate(4, 4, octaves = 1,
    scale = 1.0, persistence = 0.5, lacunarity = 2.0)], on the noise
    primitive that is 0 everywhere: cell (1, 1) holds floor(0.5 * 255). *)
Lemma GenerateHeightMap_matches_spec_witness :
  (1 <= 4)%nat /\ (1 <= 1)%nat /\
  Terrain.GenerateHeightMap (fun _ _ => 0) 4 1 1 0.5 2 !! (1 * 4 + 1)%nat = Some 127%Z.
Proof.
  split; [lia|]. split; [lia|].
  destruct (GenerateHeightMap_matches_spec (fun _ _ => 0) 4 1 1 0.5 2
              ltac:(lia) ltac:(lia)) as [_ Hcell].
  destruct (Hcell 1%nat 1%nat ltac:(lia) ltac:(lia)) as [_ Hfloor].
  destruct Hfloor as (_ & Hv & _); [intros; lra | lra |].
  rewrite Hv. f_equal. apply Zfloor_eq.
  unfold Terrain.height_spec, Terrain.fbm_spec. simpl. lra.
Defined.

(** C2. For every octave count of at least 1, every coordinate pair and
    every positive persistence and lacunarity, if the noise primitive
    returns values in [-1, 1] then the value returned by [FBM] lies in
    [0, 1]. *)
Theorem FBM_in_unit_interval (noise : R -> R -> R) (x y : R) (octaves : nat)
    (lacunarity persistence : R) :
  (forall u v, -1 <= noise u v <= 1) ->
  (1 <= octaves)%nat ->
  0 < persistence ->
  0 < lacunarity ->
  0 <= Terrain.FBM noise x y octaves lacunarity persistence <= 1.
Proof.
  intros Hnoise Hoct Hpers _. apply FBM_bounds; [done|done|lra].
Qed.

Lemma FBM_in_unit_interval_witness :
  0 <= Terrain.FBM (fun u v => sin u * cos v) 3 4 6 2 0.5 <= 1.
Proof.
  apply FBM_in_unit_interval; [|lia|lra|lra].
  intros u v. pose proof (SIN_bound u). pose proof (COS_bound v). nra.
Defined.

(** ** The normal map deriver *)
Section NormalMapFacts.
Import Glm Terrain.

(** [normalize(dx, dy, 1.0)] has length 1. *)
Lemma normalize_unit (dx dy : R) : Glm.length (normalize (Vec3 dx dy 1)) = 1.
Proof.
  unfold Glm.length, normalize, vscale, dot. cbn [vx vy vz].
  set (d := dx * dx + dy * dy + 1 * 1).
  assert (Hd : 0 < d) by (unfold d; nra).
  assert (Hs : 0 < sqrt d) by (by apply sqrt_lt_R0).
  assert (Hss : sqrt d * sqrt d = d) by (apply sqrt_sqrt; lra).
  replace (dx * / sqrt d * (dx * / sqrt d) + dy * / sqrt d * (dy * / sqrt d)
           + 1 * / sqrt d * (1 * / sqrt d))
    with (d * (/ sqrt d * / sqrt d)) by (unfold d; ring).
  rewrite <- Rinv_mult, Hss, Rinv_r by lra. apply sqrt_1.
Qed.

(** Row-major indices determine their coordinates. *)
Lemma index_inj (size x y x' y' : nat) :
  (x < size)%nat -> (x' < size)%nat ->
  (y * size + x = y' * size + x')%nat -> x = x' /\ y = y'.
Proof.
  intros Hx Hx' He.
  assert (y = y') as ->.
  { assert (Hd : ((y * size + x) / size = (y' * size + x') / size)%nat) by (by rewrite He).
    rewrite !(Nat.add_comm (_ * size)), !Nat.div_add, !Nat.div_small in Hd by lia.
    exact Hd. }
  split; [lia|done].
Qed.

Lemma GenerateNormalMap_cells (heightMap : list Z) (textureSize : nat) :
  let nm := GenerateNormalMap heightMap textureSize in
  List.length nm = List.length heightMap /\
  (forall x y, interior textureSize x y ->
     (y * textureSize + x < List.length heightMap)%nat ->
     nm !! (y * textureSize + x)%nat =
     Some (vadds (vscale (normal_spec heightMap textureSize x y) 0.5) 0.5)) /\
  (forall j, ~ (exists x y, interior textureSize x y /\ j = (y * textureSize + x)%nat) ->
     nm !! j = replicate (List.length heightMap) vec3_zero !! j).
Proof.
  cbv zeta. unfold GenerateNormalMap.
  destruct (writes_grid textureSize 1 (textureSize - 1) 1 (textureSize - 1)
              (fun x y => vadds (vscale (normal_spec heightMap textureSize x y) 0.5) 0.5)
              ltac:(lia) (replicate (List.length heightMap) vec3_zero))
    as (Hlen & Hout & Hin & _).
  split; [|split].
  - etransitivity; [exact Hlen|]. apply length_replicate.
  - intros x y [Hx Hy] Hlt.
    etransitivity; [apply Hin|].
    + exists y. split; [lia|]. exists x. split; [lia|done].
    + by rewrite length_replicate.
    + rewrite (Nat.add_comm (y * textureSize) x).
      rewrite Nat.Div0.mod_add, Nat.div_add by lia.
      rewrite Nat.mod_small, Nat.div_small by lia. done.
  - intros j Hj. apply Hout. intros (y & Hy & x & Hx & ->).
    apply Hj. exists x, y. split; [|done]. unfold interior. lia.
Qed.

End NormalMapFacts.

(** C6. For every heightmap of [textureSize * textureSize] samples and
    every interior grid point (x, y), 1 <= x, y <= textureSize - 2,
    [GenerateNormalMap] computes [dx = h(x-1, y) - h(x+1, y)] and
    [dy = h(x, y-1) - h(x, y+1)], stores [normalize(dx, dy, 1.0) * 0.5 + 0.5]
    at (x, y), and the vector before that remap has length 1, whatever the
    heightmap contains. *)
Theorem GenerateNormalMap_interior (heightMap : list Z) (textureSize x y : nat) :
  List.length heightMap = (textureSize * textureSize)%nat ->
  (1 <= x <= textureSize - 2)%nat ->
  (1 <= y <= textureSize - 2)%nat ->
  let h := fun i j => Terrain.height_at heightMap (j * textureSize + i) in
  let dx := h (x - 1)%nat y - h (x + 1)%nat y in
  let dy := h x (y - 1)%nat - h x (y + 1)%nat in
  let normal := Glm.normalize (Glm.Vec3 dx dy 1) in
  Terrain.GenerateNormalMap heightMap textureSize !! (y * textureSize + x)%nat
    = Some (Glm.vadds (Glm.vscale normal 0.5) 0.5) /\
  Glm.length normal = 1.
Proof.
  intros Hlen Hx Hy h dx dy normal.
  destruct (GenerateNormalMap_cells heightMap textureSize) as (_ & Hin & _).
  split; [|apply normalize_unit].
  apply (Hin x y); [by split|]. rewrite Hlen. nia.
Qed.

(** A 3 x 3 heightmap has the single interior point (1, 1). *)
Lemma GenerateNormalMap_interior_witness :
  let heightMap := [0; 10; 20; 30; 40; 50; 60; 70; 255]%Z in
  let normal := Glm.normalize (Glm.Vec3 (30 / 255 - 50 / 255) (10 / 255 - 70 / 255) 1) in
  Terrain.GenerateNormalMap heightMap 3 !! 4%nat
    = Some (Glm.vadds (Glm.vscale normal 0.5) 0.5) /\
  Glm.length normal = 1.
Proof.
  exact (GenerateNormalMap_interior [0; 10; 20; 30; 40; 50; 60; 70; 255]%Z 3 1 1
           eq_refl (conj (le_n 1) (le_n 1)) (conj (le_n 1) (le_n 1))).
Defined.

(** C7. For every heightmap of [textureSize * textureSize] samples,
    [GenerateNormalMap] returns a grid with as many cells as its input, in
    which every border cell (outermost rows and columns) still holds the
    value the vector was created with; only the cells of interior points
    are written. *)
Theorem GenerateNormalMap_border (heightMap : list Z) (textureSize : nat) :
  List.length heightMap = (textureSize * textureSize)%nat ->
  let nm := Terrain.GenerateNormalMap heightMap textureSize in
  List.length nm = List.length heightMap /\
  (forall x y, Terrain.border textureSize x y ->
     nm !! (y * textureSize + x)%nat = Some Glm.vec3_zero) /\
  (forall j, ~ (exists x y, Terrain.interior textureSize x y /\
                            j = (y * textureSize + x)%nat) ->
     nm !! j = replicate (List.length heightMap) Glm.vec3_zero !! j).
Proof.
  intros Hlen nm.
  destruct (GenerateNormalMap_cells heightMap textureSize) as (Hl & _ & Hout).
  split; [exact Hl|]. split; [|exact Hout].
  intros x y (Hx & Hy & Hb). subst nm. rewrite Hout.
  - apply lookup_replicate_2. rewrite Hlen. nia.
  - intros (x' & y' & [Hx' Hy'] & He).
    destruct (index_inj textureSize x y x' y') as [-> ->]; [lia|lia|done|].
    lia.
Qed.

Lemma GenerateNormalMap_border_witness :
  let nm := Terrain.GenerateNormalMap [0; 10; 20; 30; 40; 50; 60; 70; 255]%Z 3 in
  List.length nm = 9%nat /\
  nm !! 0%nat = Some Glm.vec3_zero /\ nm !! 5%nat = Some Glm.vec3_zero.
Proof.
  destruct (GenerateNormalMap_border [0; 10; 20; 30; 40; 50; 60; 70; 255]%Z 3 eq_refl)
    as (Hl & Hb & _).
  split; [exact Hl|]. split.
  - apply (Hb 0%nat 0%nat). unfold Terrain.border. lia.
  - apply (Hb 2%nat 1%nat). unfold Terrain.border. lia.
Defined.

(** ** The bloom blur stage *)
Section BloomFacts.
Import Bloom.

Lemma blur_loop_S (n : nat) (s : blur_state) :
  blur_loop (S n) s =
  (fst (blur_body s) :: fst (blur_loop n (snd (blur_body s))),
   snd (blur_loop n (snd (blur_body s)))).
Proof.
  cbn [blur_loop]. destruct (blur_body s) as [pass s1]. cbn [fst snd].
  by destruct (blur_loop n s1).
Qed.

(** The [horizontal] flag after [n] iterations. *)
Lemma blur_loop_horizontal (n : nat) (s : blur_state) :
  horizontal (snd (blur_loop n s)) =
  if Nat.even n then horizontal s else negb (horizontal s).
Proof.
  revert s. induction n as [|n IH]; intros s; [done|].
  rewrite blur_loop_S. cbn [snd]. rewrite IH, Nat.even_succ, <- Nat.negb_even.
  cbn [blur_body snd horizontal].
  destruct (Nat.even n), (horizontal s); done.
Qed.

(** The last draw call writes the framebuffer selected by the flag as it
    was before that iteration. *)
Lemma blur_loop_last (n : nat) (s : blur_state) :
  bp_target <$> last (fst (blur_loop (S n) s)) =
  Some (pingpongFBO (horizontal (snd (blur_loop n s)))).
Proof.
  revert s. induction n as [|n IH]; intros s; [done|].
  rewrite blur_loop_S. cbn [fst].
  rewrite (blur_loop_S n s). cbn [snd].
  specialize (IH (snd (blur_body s))).
  destruct (fst (blur_loop (S n) (snd (blur_body s)))) as [|p ps] eqn:E.
  - rewrite blur_loop_S in E. discriminate.
  - rewrite last_cons_cons. exact IH.
Qed.

Lemma composite_bloom_input_parity (n : nat) :
  composite_bloom_input n = pingpongColorbuffers (Nat.odd n).
Proof.
  unfold composite_bloom_input, blur_stage.
  rewrite blur_loop_horizontal, <- Nat.negb_even. cbn [blur_init horizontal].
  by destruct (Nat.even n).
Qed.

Lemma first_source_downsampled (n : nat) :
  (1 <= n)%nat -> first_source n = Some downSampledTex.
Proof.
  destruct n as [|n]; [lia|]. intros _.
  unfold first_source, blur_stage. by rewrite blur_loop_S.
Qed.

Lemma last_written_composite (n : nat) :
  (1 <= n)%nat -> last_written n = Some (composite_bloom_input n).
Proof.
  destruct n as [|n]; [lia|]. intros _.
  pose proof (blur_loop_last n blur_init) as Hl.
  unfold last_written, composite_bloom_input, blur_stage.
  destruct (last (fst (blur_loop (S n) blur_init))) as [p|]; [|discriminate].
  cbn in Hl. injection Hl as Hl. cbn [fmap option_fmap option_map].
  rewrite Hl. cbn [attachment]. f_equal. f_equal.
  rewrite !blur_loop_horizontal, Nat.even_succ, <- Nat.negb_even.
  by destruct (Nat.even n), (horizontal blur_init).
Qed.

(** No blur pass samples the texture it renders into. *)
Lemma blur_loop_no_feedback (n : nat) (s : blur_state) (p : blur_pass) :
  In p (fst (blur_loop n s)) -> bp_source p <> attachment (bp_target p).
Proof.
  revert s. induction n as [|n IH]; intros s; [intros []|].
  rewrite blur_loop_S. cbn [fst]. intros [<-|Hin]; [|by eapply IH].
  cbn. destruct (first_iteration s), (horizontal s); discriminate.
Qed.

End BloomFacts.

(** C9, as the specification states it, fails: with one blur iteration the
    composite pass reads [pingpongColorbuffers[1]], with two it reads
    [pingpongColorbuffers[0]]. *)
Lemma boundaries_depend_on_amount_parity :
  Bloom.composite_bloom_input 1 = Bloom.pingpongColorbuffers true /\
  Bloom.composite_bloom_input 2 = Bloom.pingpongColorbuffers false /\
  ~ Bloom.boundaries_independent_of_amount.
Proof.
  split; [reflexivity|]. split; [reflexivity|].
  intros H. destruct (H 1%nat 2%nat) as (_ & _ & Heq); [lia|lia|].
  discriminate Heq.
Qed.

(** C9, amended. For any two bloom blur iteration counts of at least 1, the
    first iteration reads the downsampled bright-pass target in both runs,
    and in each run the bloom input of the composite pass is the ping-pong
    colour buffer that the run's last blur iteration wrote:
    [pingpongColorbuffers[1]] after an odd count, [pingpongColorbuffers[0]]
    after an even one.  The two runs hand over the same target exactly when
    the counts have the same parity. *)
Theorem bloom_boundaries (n m : nat) :
  (1 <= n)%nat -> (1 <= m)%nat ->
  Bloom.first_source n = Some Bloom.downSampledTex /\
  Bloom.first_source m = Some Bloom.downSampledTex /\
  Bloom.last_written n = Some (Bloom.composite_bloom_input n) /\
  Bloom.last_written m = Some (Bloom.composite_bloom_input m) /\
  Bloom.composite_bloom_input n = Bloom.pingpongColorbuffers (Nat.odd n) /\
  Bloom.composite_bloom_input m = Bloom.pingpongColorbuffers (Nat.odd m) /\
  (Bloom.composite_bloom_input n = Bloom.composite_bloom_input m <->
   Nat.odd n = Nat.odd m).
Proof.
  intros Hn Hm.
  repeat (split; [first [by apply first_source_downsampled
                        | by apply last_written_composite
                        | apply composite_bloom_input_parity]|]).
  rewrite !composite_bloom_input_parity. split; [congruence|by intros ->].
Qed.

(** The program's own count, [gaussianBlurIntensity = 100], against a count
    of 10. *)
Lemma bloom_boundaries_witness :
  Bloom.first_source Bloom.gaussianBlurIntensity = Some Bloom.downSampledTex /\
  Bloom.composite_bloom_input Bloom.gaussianBlurIntensity = Bloom.pingpongColorbuffers false /\
  Bloom.composite_bloom_input Bloom.gaussianBlurIntensity = Bloom.composite_bloom_input 10.
Proof.
  destruct (bloom_boundaries Bloom.gaussianBlurIntensity 10)
    as (H1 & _ & _ & _ & H5 & _ & H7);
    [unfold Bloom.gaussianBlurIntensity; lia | lia |].
  split; [exact H1|]. split; [exact H5|]. apply H7. reflexivity.
Defined.

(** ** The sun controller *)
Section SunFacts.
Import Glm Sun.

Lemma Rltb_lt (a b : R) : Rltb a b = true <-> a < b.
Proof. unfold Rltb. destruct (Rlt_dec a b); split; intros; done || lra. Qed.

Lemma Rltb_ge (a b : R) : Rltb a b = false <-> b <= a.
Proof. unfold Rltb. destruct (Rlt_dec a b); split; intros; done || lra. Qed.

Lemma Rgeb_ge (a b : R) : Rgeb a b = true <-> b <= a.
Proof. unfold Rgeb. destruct (Rle_dec b a); split; intros; done || lra. Qed.

Lemma Rgeb_lt (a b : R) : Rgeb a b = false <-> a < b.
Proof. unfold Rgeb. destruct (Rle_dec b a); split; intros; done || lra. Qed.

(** *** Numbers *)

Lemma PI_bounds : 3.14 < PI < 3.15.
Proof.
  pose proof (PI_2_3_7_ineq 1) as [Hlo Hhi].
  unfold sum_f_R0, tg_alt, PI_2_3_7_tg, Ratan_seq in Hlo, Hhi.
  simpl in Hlo, Hhi. split; lra.
Qed.

Lemma cos_lower (a : R) : - PI / 2 <= a <= PI / 2 -> 1 - a * a / 2 <= cos a.
Proof.
  intros [H1 H2]. destruct (cos_bound a 0 H1 H2) as [Hlo _].
  unfold cos_approx, cos_term in Hlo. simpl in Hlo. lra.
Qed.

Lemma cos_upper (a : R) :
  - PI / 2 <= a <= PI / 2 -> cos a <= 1 - a * a / 2 + a * a * a * a / 24.
Proof.
  intros [H1 H2]. destruct (cos_bound a 0 H1 H2) as [_ Hhi].
  unfold cos_approx, cos_term in Hhi. simpl in Hhi. lra.
Qed.

(** *** Easing and blending *)

Lemma EaseInOutSine_range (x : R) : 0 <= EaseInOutSine x <= 1.
Proof. unfold EaseInOutSine. pose proof (COS_bound (PI * x)). lra. Qed.

(** At 5 frames per second or more the exposure blend factor is at
    most 1. *)
Lemma EaseInOutSine_small (dt : R) :
  0 <= dt <= 0.2 -> EaseInOutSine dt * 10 <= 1.
Proof.
  intros Hdt. pose proof PI_bounds as HPI.
  assert (Ha : 0 <= PI * dt <= 0.63) by nra.
  pose proof (cos_lower (PI * dt) ltac:(lra)) as Hc.
  unfold EaseInOutSine.
  assert (PI * dt * (PI * dt) <= 0.63 * 0.63) by nra.
  lra.
Qed.

Lemma mix_between (lo hi x y t : R) :
  0 <= t <= 1 -> lo <= x <= hi -> lo <= y <= hi -> lo <= mix x y t <= hi.
Proof. intros Ht Hx Hy. unfold mix. split; nra. Qed.

(** *** What one update leaves alone *)

Lemma move_update_fields (dt : R) (s : SunState) :
  sunAngle (move_update dt s) = light_angle (lightPos s) /\
  timer (move_update dt s) = timer s /\
  bReverseSun (move_update dt s) = bReverseSun s /\
  bWaiting (move_update dt s) = bWaiting s.
Proof. unfold move_update. by destruct (_ || _). Qed.

Lemma move_update_lightPos (dt : R) (s : SunState) :
  let v := sunVel (move_update dt s) in
  lightPos (move_update dt s) =
  Vec3 (sunRadius * - cos v) (sunRadius * sin v) (sunRadius * - cos v).
Proof. unfold move_update. by destruct (_ || _). Qed.

Lemma move_update_exposure (dt : R) (s : SunState) :
  exposure (move_update dt s) = mix (exposure s) minExposure (EaseInOutSine dt * 10) \/
  exposure (move_update dt s) = mix (exposure s) maxExposure (EaseInOutSine dt * 10).
Proof. unfold move_update. destruct (_ || _); [by left|by right]. Qed.

Lemma wait_update_fields (dt : R) (s : SunState) :
  lightPos (wait_update dt s) = lightPos s /\
  exposure (wait_update dt s) = exposure s /\
  sunAngle (wait_update dt s) = sunAngle s /\
  bReverseSun (wait_update dt s) = bReverseSun s.
Proof. unfold wait_update. by destruct (Rgeb _ _). Qed.

Lemma horizon_check_fields (s : SunState) :
  lightPos (horizon_check s) = lightPos s /\
  exposure (horizon_check s) = exposure s /\
  sunAngle (horizon_check s) = sunAngle s /\
  timer (horizon_check s) = timer s.
Proof.
  unfold horizon_check.
  destruct (Rltb _ _ && _); [done|]. by destruct (Rgtb _ _ && _).
Qed.

(** The horizon test on a state whose angle and flag are known. *)
Lemma horizon_check_low (s : SunState) :
  sunAngle s < 5 -> bReverseSun s = false ->
  bWaiting (horizon_check s) = true /\ bReverseSun (horizon_check s) = true.
Proof.
  intros Ha Hr. unfold horizon_check.
  apply Rltb_lt in Ha. by rewrite Ha, Hr.
Qed.

Lemma horizon_check_high (s : SunState) :
  sunAngle s > 175 -> bReverseSun s = true ->
  bWaiting (horizon_check s) = true /\ bReverseSun (horizon_check s) = false.
Proof.
  intros Ha Hr. unfold horizon_check.
  assert (Rltb (sunAngle s) 5 = false) as -> by (apply Rltb_ge; lra).
  unfold Rgtb. apply Rltb_lt in Ha. by rewrite Ha, Hr.
Qed.

Lemma horizon_check_idle (s : SunState) :
  (sunAngle s < 5 /\ bReverseSun s = true) \/
  (sunAngle s > 175 /\ bReverseSun s = false) ->
  horizon_check s = s.
Proof.
  unfold horizon_check, Rgtb. intros [[Ha ->]|[Ha ->]].
  - rewrite andb_false_r.
    assert (Rltb 175 (sunAngle s) = false) as -> by (apply Rltb_ge; lra). done.
  - assert (Rltb (sunAngle s) 5 = false) as -> by (apply Rltb_ge; lra).
    by rewrite andb_false_r.
Qed.

Lemma run_snoc (st : bool) (dts : list R) (dt : R) (s : SunState) :
  run st (dts ++ [dt]) s = AnimateSun st dt (run st dts s).
Proof. unfold run. by rewrite fold_left_app. Qed.

(** *** Invariants of every run *)

Lemma AnimateSun_waiting_consistent (st : bool) (dt : R) (s : SunState) :
  waiting_consistent s -> waiting_consistent (AnimateSun st dt s).
Proof.
  intros Hs. unfold AnimateSun. destruct st; [exact Hs|].
  set (s1 := if bWaiting s then _ else _).
  unfold waiting_consistent, horizon_check.
  destruct (Rltb (sunAngle s1) 5 && negb (bReverseSun s1)) eqn:E1.
  { apply andb_prop in E1 as [E1 _]. apply Rltb_lt in E1. intros _. by left. }
  destruct (Rgtb (sunAngle s1) 175 && bReverseSun s1) eqn:E2.
  { apply andb_prop in E2 as [E2 _]. apply Rltb_lt in E2. intros _. right. cbn. lra. }
  subst s1. destruct (bWaiting s) eqn:Ew.
  - destruct (wait_update_fields dt s) as (_ & _ & -> & ->).
    intros _. by apply Hs.
  - destruct (move_update_fields dt s) as (_ & _ & _ & ->). congruence.
Qed.

Lemma run_waiting_consistent (st : bool) (dts : list R) :
  waiting_consistent (run st dts initial).
Proof.
  induction dts as [|dt dts IH] using rev_ind; [intros H; discriminate H|].
  rewrite run_snoc. by apply AnimateSun_waiting_consistent.
Qed.

Lemma AnimateSun_diagonal (st : bool) (dt : R) (s : SunState) :
  vx (lightPos s) = vz (lightPos s) ->
  vx (lightPos (AnimateSun st dt s)) = vz (lightPos (AnimateSun st dt s)).
Proof.
  intros Hs. unfold AnimateSun. destruct st; [done|].
  destruct (horizon_check_fields (if bWaiting s then wait_update dt s
                                  else move_update dt s)) as (-> & _).
  destruct (bWaiting s).
  - by destruct (wait_update_fields dt s) as (-> & _).
  - by rewrite move_update_lightPos.
Qed.

Lemma AnimateSun_exposure (st : bool) (dt : R) (s : SunState) :
  EaseInOutSine dt * 10 <= 1 ->
  exposure_in_bounds s -> exposure_in_bounds (AnimateSun st dt s).
Proof.
  intros Hdt Hs. unfold exposure_in_bounds, AnimateSun in *.
  destruct st; [exact Hs|].
  destruct (horizon_check_fields (if bWaiting s then wait_update dt s
                                  else move_update dt s)) as (_ & -> & _).
  destruct (bWaiting s).
  - by destruct (wait_update_fields dt s) as (_ & -> & _).
  - pose proof (EaseInOutSine_range dt).
    destruct (move_update_exposure dt s) as [-> | ->];
      apply mix_between; unfold minExposure, maxExposure in *; lra.
Qed.

End SunFacts.

(** ** A concrete run: an eight-second first frame *)
Section SunRun.
Import Glm Sun.

Lemma sq_le (u w : R) : 0 <= u -> 0 <= w -> u * u <= w * w -> u <= w.
Proof. intros. nra. Qed.

Lemma acos_lt (c b : R) :
  -1 <= c <= 1 -> 0 <= b <= PI -> cos b < c -> acos c < b.
Proof.
  intros Hc Hb Hlt. pose proof (acos_bound c) as Ha.
  apply (cos_decreasing_0 b (acos c)); try lra.
  by rewrite cos_acos.
Qed.

Lemma degrees_lt (a d : R) : a < d * (PI / 180) -> degrees a < d.
Proof.
  intros H. unfold degrees. pose proof PI_RGT_0.
  assert (Hk : 0 < 180 / PI) by (apply Rdiv_lt_0_compat; lra).
  pose proof (Rmult_lt_compat_r _ _ _ Hk H) as Hm.
  replace (d * (PI / 180) * (180 / PI)) with d in Hm by (field; lra).
  exact Hm.
Qed.

(** The angle of the initial light position (0, 0.1, 0) is 90 degrees. *)
Lemma light_angle_initial : light_angle (lightPos initial) = 90.
Proof.
  unfold light_angle, initial, normalize, vscale, dot. cbn [lightPos vx vy vz].
  replace (0 * _ * (1 * _) + 0.1 * _ * (0 * _) + 0 * _ * (1 * _)) with 0 by ring.
  rewrite acos_0. unfold degrees. pose proof PI_RGT_0. field. lra.
Qed.

(** On the orbit, while the light is on the positive side of the
    diagonal, the cosine of its angle is at least [- cos sunVel]. *)
Lemma orbit_cosine (v : R) :
  0 <= - cos v ->
  let p := Vec3 (sunRadius * - cos v) (sunRadius * sin v) (sunRadius * - cos v) in
  - cos v <= dot (normalize p) (normalize (Vec3 1 0 1)) <= 1.
Proof.
  intros HX p. unfold p, normalize, vscale, dot, sunRadius. cbn [vx vy vz].
  set (X := - cos v) in *. set (Y := sin v).
  assert (HXY : X * X + Y * Y = 1).
  { unfold X, Y. pose proof (sin2_cos2 v) as H. unfold Rsqr in H. lra. }
  set (d := 1.7 * X * (1.7 * X) + 1.7 * Y * (1.7 * Y) + 1.7 * X * (1.7 * X)).
  set (e := 1 * 1 + 0 * 0 + 1 * 1).
  assert (Hd : 0 < d) by (unfold d; nra).
  assert (He : 0 < e) by (unfold e; lra).
  assert (Ha : 0 < sqrt d) by (by apply sqrt_lt_R0).
  assert (Hb : 0 < sqrt e) by (by apply sqrt_lt_R0).
  assert (Haa : sqrt d * sqrt d = 1.7 * 1.7 * (1 + X * X))
    by (rewrite sqrt_sqrt by lra; unfold d; nra).
  assert (Hbb : sqrt e * sqrt e = 2) by (rewrite sqrt_sqrt by lra; unfold e; lra).
  set (a := sqrt d) in *. set (b := sqrt e) in *.
  assert (Hab : a * b * (a * b) = 2 * (1.7 * 1.7) * (1 + X * X)) by nra.
  assert (Hab0 : 0 < a * b) by nra.
  replace (1.7 * X * / a * (1 * / b) + 1.7 * Y * / a * (0 * / b)
           + 1.7 * X * / a * (1 * / b))
    with (2 * 1.7 * X / (a * b)) by (field; lra).
  assert (Hle : a * b <= 2 * 1.7) by (apply sq_le; nra).
  assert (Hge : 2 * 1.7 * X <= a * b) by (apply sq_le; nra).
  split.
  - apply Rmult_le_reg_r with (a * b); [done|].
    replace (2 * 1.7 * X / (a * b) * (a * b)) with (2 * 1.7 * X) by (field; lra).
    nra.
  - apply Rmult_le_reg_r with (a * b); [done|].
    replace (2 * 1.7 * X / (a * b) * (a * b)) with (2 * 1.7 * X) by (field; lra).
    lra.
Qed.

Lemma EaseInOutSine_8 : EaseInOutSine 8 = 0.
Proof.
  unfold EaseInOutSine.
  replace (PI * 8) with (0 + 2 * INR 4 * PI) by (simpl; ring).
  rewrite cos_period, cos_0. lra.
Qed.

Lemma EaseInOutSine_1 : EaseInOutSine 1 = 1.
Proof. unfold EaseInOutSine. rewrite Rmult_1_r, cos_PI. lra. Qed.

(** The first frame, whatever its length: the sun is at 90 degrees and
    speeds up. *)
Lemma first_frame_any (dt : R) :
  let s := AnimateSun bIsSunStationary dt initial in
  let v := mix (dt * sunDesiredSpeed) sunDesiredSpeed (EaseInOutSine dt * 3) in
  lightPos s = Vec3 (sunRadius * - cos v) (sunRadius * sin v) (sunRadius * - cos v) /\
  exposure s = maxExposure /\ sunVel s = v /\ timer s = 0 /\
  bReverseSun s = false /\ bWaiting s = false.
Proof.
  cbv zeta. unfold AnimateSun, bIsSunStationary. cbn [bWaiting initial].
  set (v := mix (dt * sunDesiredSpeed) sunDesiredSpeed (EaseInOutSine dt * 3)).
  assert (Hm : move_update dt initial =
               MkSun (Vec3 (sunRadius * - cos v) (sunRadius * sin v)
                        (sunRadius * - cos v))
                     (mix3 WHITE WHITE (EaseInOutSine dt * 10)) maxExposure 90 v
                     0 false false).
  { unfold move_update. rewrite light_angle_initial. cbn [bReverseSun initial].
    assert (Rltb 90 89.9 = false) as -> by (apply Rltb_ge; lra).
    cbn [andb orb negb]. rewrite andb_false_r.
    cbn [sunVel exposure lightDiffuse timer bWaiting initial].
    replace (0 + mix (dt * sunDesiredSpeed * 1) (sunDesiredSpeed * 1)
                   (EaseInOutSine dt * 3)) with v
      by (unfold v, mix; ring).
    replace (mix maxExposure maxExposure (EaseInOutSine dt * 10)) with maxExposure
      by (unfold mix; ring).
    done. }
  rewrite Hm. unfold horizon_check, Rgtb. cbn [sunAngle bReverseSun].
  assert (Rltb 90 5 = false) as -> by (apply Rltb_ge; lra).
  rewrite andb_false_r. cbn [andb]. done.
Qed.

(** An 8 second first frame lands at [sunVel = 3.2]. *)
Lemma first_frame :
  let s := AnimateSun bIsSunStationary 8 initial in
  lightPos s = Vec3 (sunRadius * - cos 3.2) (sunRadius * sin 3.2) (sunRadius * - cos 3.2) /\
  exposure s = maxExposure /\ sunVel s = 3.2 /\ timer s = 0 /\
  bReverseSun s = false /\ bWaiting s = false.
Proof.
  pose proof (first_frame_any 8) as H. cbv zeta in H.
  replace (mix (8 * sunDesiredSpeed) sunDesiredSpeed (EaseInOutSine 8 * 3))
    with 3.2 in H
    by (rewrite EaseInOutSine_8; unfold mix, sunDesiredSpeed; lra).
  exact H.
Qed.

(** There the light is less than 5 degrees from the diagonal. *)
Lemma first_frame_angle :
  light_angle (lightPos (AnimateSun bIsSunStationary 8 initial)) < 5.
Proof.
  destruct first_frame as (-> & _).
  pose proof PI_bounds as HPI.
  assert (Hcos : 0.998 <= - cos 3.2).
  { replace 3.2 with ((3.2 - PI) + PI) by ring. rewrite neg_cos.
    pose proof (cos_lower (3.2 - PI) ltac:(lra)). nra. }
  destruct (orbit_cosine 3.2 ltac:(lra)) as [Hlo Hhi].
  unfold light_angle. apply degrees_lt, acos_lt; [lra|lra|].
  replace (5 * (PI / 180)) with (PI / 36) by field.
  pose proof (cos_upper (PI / 36) ltac:(lra)) as Hu.
  assert (0.087 <= PI / 36 <= 0.0875) by lra.
  assert (PI / 36 * (PI / 36) >= 0.087 * 0.087) by nra.
  assert (PI / 36 * (PI / 36) <= 0.0875 * 0.0875) by nra.
  assert (PI / 36 * (PI / 36) * (PI / 36) * (PI / 36) <= 0.0001) by nra.
  lra.
Qed.

Lemma move_update_horizon (dt : R) (s : SunState) :
  light_angle (lightPos s) < 89.9 -> bReverseSun s = false ->
  exposure (move_update dt s) = mix (exposure s) minExposure (EaseInOutSine dt * 10).
Proof.
  intros Ha Hr. unfold move_update. apply Rltb_lt in Ha. by rewrite Ha, Hr.
Qed.

(** A second frame of one second: the exposure blend overshoots, and the
    sun starts to wait at the horizon. *)
Lemma second_frame :
  let s := run bIsSunStationary [8; 1] initial in
  exposure s = -6.25 /\ timer s = 0 /\ bReverseSun s = true /\ bWaiting s = true.
Proof.
  cbv zeta. unfold run. cbn [fold_left].
  pose proof first_frame_angle as Hang.
  destruct first_frame as (_ & He & _ & Ht & Hr & Hw).
  set (s1 := AnimateSun bIsSunStationary 8 initial) in *.
  unfold AnimateSun, bIsSunStationary. rewrite Hw. cbv iota.
  destruct (move_update_fields 1 s1) as (Ha & Ht' & Hr' & _).
  destruct (horizon_check_fields (move_update 1 s1)) as (_ & -> & _ & ->).
  destruct (horizon_check_low (move_update 1 s1)) as (-> & ->);
    [rewrite Ha; exact Hang | congruence |].
  rewrite move_update_horizon, He, EaseInOutSine_1 by (lra || done).
  rewrite Ht', Ht. unfold mix, maxExposure, minExposure.
  repeat split; lra.
Qed.

(** The distance of the light from the origin after a position update. *)
Lemma orbit_distance (v : R) :
  let p := Vec3 (sunRadius * - cos v) (sunRadius * sin v) (sunRadius * - cos v) in
  dot p p = sunRadius * sunRadius * (1 + cos v * cos v).
Proof.
  cbv zeta. unfold dot. cbn [vx vy vz].
  pose proof (sin2_cos2 v) as H. unfold Rsqr in H. nra.
Qed.

End SunRun.

Section SunSteps.
Import Glm Sun.

Lemma run_exposure (st : bool) (dts : list R) :
  Forall (fun dt => EaseInOutSine dt * 10 <= 1) dts ->
  exposure_in_bounds (run st dts initial).
Proof.
  induction dts as [|dt dts IH] using rev_ind; intros Hall.
  - unfold exposure_in_bounds, run, initial. cbn [fold_left exposure].
    unfold minExposure, maxExposure. lra.
  - apply Forall_app in Hall as [Hdts Hdt].
    rewrite run_snoc. apply AnimateSun_exposure; [|by apply IH].
    by inversion Hdt.
Qed.

(** One update of a waiting sun. *)
Lemma waiting_step (dt : R) (s : SunState) :
  waiting_consistent s ->
  bWaiting s = true ->
  let s' := AnimateSun bIsSunStationary dt s in
  (idleTime <= timer s + dt ->
     bWaiting s' = false /\ timer s' = 0 /\ bReverseSun s' = bReverseSun s) /\
  (timer s + dt < idleTime ->
     bWaiting s' = true /\ timer s' = timer s + dt /\ bReverseSun s' = bReverseSun s).
Proof.
  intros Hs Hw. cbv zeta. unfold AnimateSun, bIsSunStationary. rewrite Hw.
  rewrite horizon_check_idle.
  2:{ destruct (wait_update_fields dt s) as (_ & _ & -> & ->). by apply Hs. }
  unfold wait_update. split; intros Ht.
  - apply Rgeb_ge in Ht. by rewrite Ht.
  - apply Rgeb_lt in Ht. by rewrite Ht.
Qed.

(** One update of a moving sun looks at the angle of the light position
    it starts from. *)
Lemma moving_or_waiting_angle (dt : R) (s : SunState) :
  let s1 := if bWaiting s then wait_update dt s else move_update dt s in
  sunAngle s1 = checked_angle s /\ bReverseSun s1 = bReverseSun s.
Proof.
  cbv zeta. unfold checked_angle. destruct (bWaiting s).
  - by destruct (wait_update_fields dt s) as (_ & _ & -> & ->).
  - by destruct (move_update_fields dt s) as (-> & _ & -> & _).
Qed.

Lemma phase_animated (s : SunState) :
  phase bIsSunStationary s = if bWaiting s then Waiting else Moving.
Proof. reflexivity. Qed.

End SunSteps.

(** C3 does not hold of the code.  After a first frame of 8 seconds and a
    second frame of 1 second the exposure is -6.25, below [minExposure]:
    the sun is then near the horizon, the blend factor
    [EaseInOutSine(1) * 10] is 10, and [glm::mix] is handed that factor
    unclamped, so it extrapolates past [minExposure] instead of
    interpolating toward it. *)
Lemma exposure_leaves_bounds :
  Sun.exposure (Sun.run Sun.bIsSunStationary [8; 1] Sun.initial) = -6.25 /\
  ~ Sun.exposure_in_bounds (Sun.run Sun.bIsSunStationary [8; 1] Sun.initial) /\
  ~ (forall deltaTimes : list R,
       Sun.exposure_in_bounds (Sun.run Sun.bIsSunStationary deltaTimes Sun.initial)).
Proof.
  destruct second_frame as (He & _).
  assert (Hout : ~ Sun.exposure_in_bounds (Sun.run Sun.bIsSunStationary [8; 1] Sun.initial)).
  { unfold Sun.exposure_in_bounds, Sun.minExposure. rewrite He. lra. }
  split; [exact He|]. split; [exact Hout|].
  intros H. exact (Hout (H [8; 1])).
Qed.

(** C4. Whenever an update of the animated sun runs with the light's angle
    below 5 degrees while the sun is not reversed (it travels toward that
    horizon), or above 175 degrees while it is reversed (it travels toward
    the other), that same update sets the phase to Waiting and flips the
    travel-direction flag. *)
Theorem horizon_sets_waiting (deltaTime : R) (s : Sun.SunState) :
  (Sun.checked_angle s < 5 /\ Sun.bReverseSun s = false) \/
  (Sun.checked_angle s > 175 /\ Sun.bReverseSun s = true) ->
  let s' := Sun.AnimateSun Sun.bIsSunStationary deltaTime s in
  Sun.phase Sun.bIsSunStationary s' = Sun.Waiting /\
  Sun.bReverseSun s' = negb (Sun.bReverseSun s).
Proof.
  intros H. cbv zeta. unfold Sun.phase, Sun.AnimateSun, Sun.bIsSunStationary.
  destruct (moving_or_waiting_angle deltaTime s) as [Ha Hr].
  destruct H as [[Hlt Hrev]|[Hgt Hrev]].
  - destruct (horizon_check_low _ ltac:(rewrite Ha; exact Hlt)
                ltac:(rewrite Hr; exact Hrev)) as [-> ->].
    by rewrite Hrev.
  - destruct (horizon_check_high _ ltac:(rewrite Ha; exact Hgt)
                ltac:(rewrite Hr; exact Hrev)) as [-> ->].
    by rewrite Hrev.
Qed.

(** After an 8 second first frame the light is about 2.4 degrees from the
    diagonal and not reversed; the next update makes the sun wait. *)
Lemma horizon_sets_waiting_witness :
  let s := Sun.AnimateSun Sun.bIsSunStationary 8 Sun.initial in
  let s' := Sun.AnimateSun Sun.bIsSunStationary 1 s in
  Sun.checked_angle s < 5 /\ Sun.bReverseSun s = false /\
  Sun.phase Sun.bIsSunStationary s' = Sun.Waiting /\
  Sun.bReverseSun s' = negb (Sun.bReverseSun s).
Proof.
  cbv zeta.
  assert (Ha : Sun.checked_angle (Sun.AnimateSun Sun.bIsSunStationary 8 Sun.initial) < 5).
  { unfold Sun.checked_angle.
    destruct first_frame as (_ & _ & _ & _ & _ & ->). exact first_frame_angle. }
  assert (Hr : Sun.bReverseSun (Sun.AnimateSun Sun.bIsSunStationary 8 Sun.initial) = false).
  { by destruct first_frame as (_ & _ & _ & _ & -> & _). }
  split; [exact Ha|]. split; [exact Hr|].
  exact (horizon_sets_waiting 1 (Sun.AnimateSun Sun.bIsSunStationary 8 Sun.initial)
           (or_introl (conj Ha Hr))).
Defined.

(** C5. If the sun controller is in the Waiting phase (in any state the
    render loop can reach) and the accumulated waiting time reaches
    [idleTime] on an update, that update returns the phase to Moving, with
    the travel-direction flag as it was flipped when the wait began (set at
    the horizon below 5 degrees, cleared at the one above 175 degrees) and
    the wait timer reset to zero; as long as the accumulated time stays
    below [idleTime], the phase stays Waiting and the time accumulates. *)
Theorem waiting_until_idle (deltaTimes : list R) (deltaTime : R) :
  let s := Sun.run Sun.bIsSunStationary deltaTimes Sun.initial in
  let s' := Sun.AnimateSun Sun.bIsSunStationary deltaTime s in
  Sun.phase Sun.bIsSunStationary s = Sun.Waiting ->
  ((Sun.sunAngle s < 5 /\ Sun.bReverseSun s = true) \/
   (Sun.sunAngle s > 175 /\ Sun.bReverseSun s = false)) /\
  (Sun.idleTime <= Sun.timer s + deltaTime ->
     Sun.phase Sun.bIsSunStationary s' = Sun.Moving /\
     Sun.timer s' = 0 /\ Sun.bReverseSun s' = Sun.bReverseSun s) /\
  (Sun.timer s + deltaTime < Sun.idleTime ->
     Sun.phase Sun.bIsSunStationary s' = Sun.Waiting /\
     Sun.timer s' = Sun.timer s + deltaTime /\
     Sun.bReverseSun s' = Sun.bReverseSun s).
Proof.
  intros s s' Hph.
  assert (Hw : Sun.bWaiting s = true).
  { unfold Sun.phase, Sun.bIsSunStationary in Hph.
    destruct (Sun.bWaiting s); [reflexivity|discriminate]. }
  destruct (waiting_step deltaTime s
              (run_waiting_consistent Sun.bIsSunStationary deltaTimes) Hw)
    as [Hdone Hstay].
  change (Sun.AnimateSun Sun.bIsSunStationary deltaTime s) with s' in Hdone, Hstay.
  split; [exact (run_waiting_consistent Sun.bIsSunStationary deltaTimes Hw)|].
  unfold Sun.phase, Sun.bIsSunStationary.
  split; intros Ht.
  - destruct (Hdone Ht) as (-> & ? & ?). done.
  - destruct (Hstay Ht) as (-> & ? & ?). done.
Qed.

(** The sun that started to wait after the frames of 8 and 1 seconds moves
    again after one more second. *)
Lemma waiting_until_idle_witness :
  let s := Sun.run Sun.bIsSunStationary [8; 1] Sun.initial in
  let s' := Sun.AnimateSun Sun.bIsSunStationary 1 s in
  Sun.phase Sun.bIsSunStationary s = Sun.Waiting /\
  Sun.phase Sun.bIsSunStationary s' = Sun.Moving /\
  Sun.timer s' = 0 /\ Sun.bReverseSun s' = Sun.bReverseSun s.
Proof.
  cbv zeta.
  assert (Hph : Sun.phase Sun.bIsSunStationary
                  (Sun.run Sun.bIsSunStationary [8; 1] Sun.initial) = Sun.Waiting).
  { rewrite phase_animated.
    destruct second_frame as (_ & _ & _ & ->). reflexivity. }
  split; [exact Hph|].
  destruct (waiting_until_idle [8; 1] 1 Hph) as (_ & Hdone & _).
  apply Hdone.
  destruct second_frame as (_ & -> & _). unfold Sun.idleTime. lra.
Defined.

Section SunOrbit.
Import Glm Sun.

(** The distance of the light from the origin after any position update. *)
Lemma orbit_length (v : R) :
  Glm.length (Vec3 (sunRadius * - cos v) (sunRadius * sin v) (sunRadius * - cos v))
  = sunRadius * sqrt (1 + cos v * cos v).
Proof.
  unfold Glm.length. rewrite orbit_distance.
  rewrite sqrt_mult by (unfold sunRadius; nra).
  rewrite sqrt_square by (unfold sunRadius; lra). done.
Qed.

End SunOrbit.

(** C8 does not hold of the code. From the initial state, which is in the
    Moving phase, an update with an elapsed time of one second brings the
    sun to [sunVel = 0.4] and the light to a distance of
    [sunRadius * sqrt (1 + cos(0.4)^2)] from the origin, which is more than
    [sunRadius]. *)
Theorem orbit_misses_radius :
  let s := Sun.AnimateSun Sun.bIsSunStationary 1 Sun.initial in
  Sun.phase Sun.bIsSunStationary Sun.initial = Sun.Moving /\
  Sun.sunVel s = 0.4 /\
  Glm.length (Sun.lightPos s) = Sun.sunRadius * sqrt (1 + cos 0.4 * cos 0.4) /\
  Sun.sunRadius < Glm.length (Sun.lightPos s).
Proof.
  cbv zeta. pose proof (first_frame_any 1) as H. cbv zeta in H.
  replace (Glm.mix (1 * Sun.sunDesiredSpeed) Sun.sunDesiredSpeed
             (Sun.EaseInOutSine 1 * 3)) with 0.4 in H
    by (rewrite EaseInOutSine_1; unfold Glm.mix, Sun.sunDesiredSpeed; lra).
  destruct H as (-> & _ & -> & _).
  split; [reflexivity|]. split; [reflexivity|].
  rewrite orbit_length. split; [reflexivity|].
  pose proof PI_bounds as HPI.
  assert (Hc : 0 < cos 0.4) by (apply cos_gt_0; lra).
  assert (Hs : 1 < sqrt (1 + cos 0.4 * cos 0.4)).
  { rewrite <- sqrt_1 at 1. apply sqrt_lt_1; nra. }
  unfold Sun.sunRadius. nra.
Qed.

(** C10. After every [AnimateSun] update, in every phase and starting from
    the initial light position, [lightPos.x = lightPos.z]: the sun stays in
    the diagonal vertical plane x = z.  Within that plane a position update
    puts it at distance [sunRadius * sqrt (1 + cos(sunVel)^2)] from the
    origin, which is not constant. *)
Theorem light_in_diagonal_plane (stationary : bool) (deltaTimes : list R) :
  (let s := Sun.run stationary deltaTimes Sun.initial in
   Glm.vx (Sun.lightPos s) = Glm.vz (Sun.lightPos s)) /\
  (forall (deltaTime : R) (s : Sun.SunState),
     let s' := Sun.move_update deltaTime s in
     Glm.length (Sun.lightPos s') =
     Sun.sunRadius * sqrt (1 + cos (Sun.sunVel s') * cos (Sun.sunVel s'))).
Proof.
  split.
  - induction deltaTimes as [|dt dts IH] using rev_ind; [reflexivity|].
    cbv zeta. rewrite run_snoc. by apply AnimateSun_diagonal.
  - intros dt s. cbv zeta. rewrite move_update_lightPos. apply orbit_length.
Qed.

(** * Further properties of the code *)

(** ** Terrain synthesis *)
Section TerrainMore.
Import Glm Terrain.
Variable noise : R -> R -> R.

(** Loop invariant of [FBM] for a noise primitive between [lo] and [hi]. *)
Lemma fbm_loop_between (lo hi : R) (n : nat) (x y lac pers : R) (a : fbm_acc) :
  (forall u v, lo <= noise u v <= hi) ->
  0 <= pers ->
  0 <= amplitude a ->
  lo * maxValue a <= total a <= hi * maxValue a ->
  let r := fbm_loop noise n x y lac pers a in
  0 <= amplitude r /\ lo * maxValue r <= total r <= hi * maxValue r /\
  maxValue a <= maxValue r.
Proof.
  intros Hn Hp. revert a. induction n as [|n IH]; intros a Ha Hb; simpl.
  - repeat split; lra.
  - destruct (IH (fbm_body noise x y lac pers a)) as (H1 & H2 & H3).
    + unfold fbm_body; simpl. nra.
    + unfold fbm_body; simpl.
      pose proof (Hn (x * frequency a) (y * frequency a)). nra.
    + set (r := fbm_loop noise n x y lac pers _) in *.
      unfold fbm_body in H3; simpl in H3. repeat split; lra.
Qed.

(** The bytes [GenerateHeightMap] stores, read back as heights. *)
Lemma height_at_generated (textureSize : nat) (scale : R) (octaves : nat)
    (pers lac : R) (x y : nat) :
  (x < textureSize)%nat -> (y < textureSize)%nat ->
  height_at (GenerateHeightMap noise textureSize scale octaves pers lac)
            (y * textureSize + x)
  = IZR (uchar_cast (FBM noise (INR x * scale) (INR y * scale) octaves lac pers * 255))
    / 255.
Proof.
  intros Hx Hy. unfold height_at.
  destruct (GenerateHeightMap_writes noise textureSize scale octaves pers lac)
    as [_ Hcell].
  by rewrite (Hcell x y Hx Hy).
Qed.

End TerrainMore.

Section NormalMapMore.
Import Glm Terrain.

(** A height read from a vector of bytes is between 0 and 1. *)
Lemma height_at_range (heightMap : list Z) (i : nat) :
  Forall (fun b => (0 <= b <= 255)%Z) heightMap ->
  0 <= height_at heightMap i <= 1.
Proof.
  intros Hall. unfold height_at.
  destruct (heightMap !! i) as [b|] eqn:E; simpl.
  - assert (Hb : (0 <= b <= 255)%Z).
    { rewrite Forall_lookup in Hall. exact (Hall i b E). }
    destruct Hb as [H0 H1]. apply IZR_le in H0, H1. lra.
  - lra.
Qed.

(** The components of [normalize(dx, dy, 1.0)]. *)
Lemma normalize_components (dx dy : R) :
  let n := normalize (Vec3 dx dy 1) in
  -1 <= vx n <= 1 /\ -1 <= vy n <= 1 /\ 0 < vz n <= 1 /\
  (-1 <= dx <= 1 -> -1 <= dy <= 1 -> / sqrt 3 <= vz n).
Proof.
  cbv zeta. unfold normalize, vscale, dot. cbn [vx vy vz].
  set (d := dx * dx + dy * dy + 1 * 1).
  assert (Hd : 1 <= d) by (unfold d; nra).
  assert (Hs : 0 < sqrt d) by (apply sqrt_lt_R0; lra).
  assert (Hss : sqrt d * sqrt d = d) by (apply sqrt_sqrt; lra).
  assert (Hs1 : 1 <= sqrt d) by (apply sq_le; nra).
  assert (Hi : 0 < / sqrt d) by (by apply Rinv_0_lt_compat).
  assert (Hi1 : / sqrt d * sqrt d = 1) by (apply Rinv_l; lra).
  assert (Hdd : dx * dx <= sqrt d * sqrt d /\ dy * dy <= sqrt d * sqrt d)
    by (rewrite Hss; unfold d; nra).
  assert (Hx : - sqrt d <= dx <= sqrt d) by (split; nra).
  assert (Hy : - sqrt d <= dy <= sqrt d) by (split; nra).
  repeat split; try nra.
  intros Hdx Hdy.
  assert (H3 : 0 < sqrt 3) by (apply sqrt_lt_R0; lra).
  rewrite Rmult_1_l. apply Rinv_le_contravar; [done|].
  apply sqrt_le_1_alt. unfold d. nra.
Qed.

End NormalMapMore.

(** X1. [FBM] is a weighted average of noise samples: if the noise primitive
    stays between [lo] and [hi], then for at least one octave and a
    persistence that is not negative the result stays between
    [(lo + 1) / 2] and [(hi + 1) / 2].  In particular a constant noise [c]
    gives [(c + 1) / 2] whatever the octaves, lacunarity and persistence. *)
Theorem FBM_weighted_average (noise : R -> R -> R) (lo hi x y : R) (octaves : nat)
    (lacunarity persistence : R) :
  (forall u v, lo <= noise u v <= hi) ->
  (1 <= octaves)%nat ->
  0 <= persistence ->
  (lo + 1) / 2 <= Terrain.FBM noise x y octaves lacunarity persistence <= (hi + 1) / 2.
Proof.
  intros Hn Ho Hp. destruct octaves as [|k]; [lia|].
  unfold Terrain.FBM.
  change (Terrain.fbm_loop noise (S k) x y lacunarity persistence (Terrain.FbmAcc 0 1 1 0))
    with (Terrain.fbm_loop noise k x y lacunarity persistence
            (Terrain.fbm_body noise x y lacunarity persistence (Terrain.FbmAcc 0 1 1 0))).
  destruct (fbm_loop_between noise lo hi k x y lacunarity persistence
              (Terrain.fbm_body noise x y lacunarity persistence (Terrain.FbmAcc 0 1 1 0))
              Hn Hp) as (_ & Hb & Hm).
  - unfold Terrain.fbm_body; simpl. lra.
  - unfold Terrain.fbm_body; simpl. pose proof (Hn (x * 1) (y * 1)). lra.
  - set (r := Terrain.fbm_loop noise k x y lacunarity persistence _) in *.
    unfold Terrain.fbm_body in Hm; simpl in Hm.
    assert (HM : 0 < Terrain.maxValue r) by lra.
    assert (Hq : Terrain.total r
                 = Terrain.total r / Terrain.maxValue r * Terrain.maxValue r)
      by (field; lra).
    set (q := Terrain.total r / Terrain.maxValue r) in *. cbv zeta.
    assert (lo <= q) by (apply Rmult_le_reg_r with (Terrain.maxValue r); lra).
    assert (q <= hi) by (apply Rmult_le_reg_r with (Terrain.maxValue r); lra).
    lra.
Qed.

Lemma FBM_weighted_average_witness :
  Terrain.FBM (fun _ _ => 0.25) 3 4 6 2 0.5 = 0.625.
Proof.
  pose proof (FBM_weighted_average (fun _ _ => 0.25) 0.25 0.25 3 4 6 2 0.5
                ltac:(intros; lra) ltac:(lia) ltac:(lra)) as H.
  lra.
Defined.

(** X2. Storing a height as a byte and reading it back as [byte / 255.0]
    loses less than 1/255: for a noise primitive with values in [-1, 1], at
    least one octave and a persistence that is not negative, the height
    [GenerateNormalMap] reads at (x, y) from the generated map is at most
    the [FBM] value there and within 1/255 of it. *)
Theorem heightmap_quantisation (noise : R -> R -> R) (textureSize : nat) (scale : R)
    (octaves : nat) (persistence lacunarity : R) (x y : nat) :
  (forall u v, -1 <= noise u v <= 1) ->
  (1 <= octaves)%nat ->
  0 <= persistence ->
  (x < textureSize)%nat -> (y < textureSize)%nat ->
  let v := Terrain.FBM noise (INR x * scale) (INR y * scale) octaves lacunarity persistence in
  let h := Terrain.height_at
             (Terrain.GenerateHeightMap noise textureSize scale octaves persistence lacunarity)
             (y * textureSize + x) in
  v - 1 / 255 < h <= v.
Proof.
  intros Hn Ho Hp Hx Hy v h. subst h.
  rewrite height_at_generated by done. fold v.
  pose proof (FBM_bounds noise (INR x * scale) (INR y * scale) octaves lacunarity
                persistence Hn Ho Hp) as Hb. fold v in Hb.
  destruct (uchar_cast_floor (v * 255)) as [-> _]; [lra|].
  pose proof (Zfloor_bound (v * 255)). lra.
Qed.

Lemma heightmap_quantisation_witness :
  let h := Terrain.height_at (Terrain.GenerateHeightMap (fun _ _ => 0) 4 1 1 0.5 2) 5 in
  Terrain.FBM (fun _ _ => 0) (INR 1 * 1) (INR 1 * 1) 1 2 0.5 - 1 / 255 < h
  <= Terrain.FBM (fun _ _ => 0) (INR 1 * 1) (INR 1 * 1) 1 2 0.5.
Proof.
  exact (heightmap_quantisation (fun _ _ => 0) 4 1 1 0.5 2 1 1
           ltac:(intros; lra) ltac:(lia) ltac:(lra) ltac:(lia) ltac:(lia)).
Defined.

Section CheckedLoops.
Import Glm Terrain TerrainChecked.

(** A loop over an optional state that never fails computes the loop over
    the plain state. *)
Lemma for_range_checked {A : Type} (lo hi : nat) (bodyc : nat -> option A -> option A)
    (body : nat -> A -> A) (P : A -> Prop) :
  (forall i a, (lo <= i < hi)%nat -> P a ->
     bodyc i (Some a) = Some (body i a) /\ P (body i a)) ->
  forall a, P a ->
    for_range lo hi bodyc (Some a) = Some (for_range lo hi body a) /\
    P (for_range lo hi body a).
Proof.
  intros Hstep. unfold for_range.
  assert (Hks : forall i, In i (seq lo (hi - lo)) -> (lo <= i < hi)%nat)
    by (intros i Hi; apply in_seq in Hi; lia).
  revert Hks. generalize (seq lo (hi - lo)) as ks.
  induction ks as [|k ks IH]; intros Hks a Ha; [by split|].
  cbn [fold_left].
  destruct (Hstep k a (Hks k (or_introl eq_refl)) Ha) as [-> Hk].
  apply IH; [|exact Hk]. intros i Hi. apply Hks. by right.
Qed.

(** The last iteration of a loop that runs at least once. *)
Lemma for_range_last {A : Type} (lo hi : nat) (body : nat -> A -> A) (a : A) :
  (lo < hi)%nat ->
  for_range lo hi body a = body (hi - 1)%nat (for_range lo (hi - 1) body a).
Proof.
  intros Hlt. unfold for_range.
  replace (hi - lo)%nat with (S (hi - 1 - lo)) by lia.
  rewrite seq_S, fold_left_app. cbn [fold_left].
  by replace (lo + (hi - 1 - lo))%nat with (hi - 1)%nat by lia.
Qed.

(** Where all reads and the write are in range, the checked loop body does
    what the loop body of [GenerateNormalMap] does. *)
Lemma normal_step_in_range (heightMap : list Z) (textureSize x y : nat)
    (normalMap : list vec3) :
  (textureSize * textureSize - 1 <= List.length heightMap)%nat ->
  (1 <= x < textureSize - 1)%nat -> (1 <= y < textureSize - 1)%nat ->
  List.length normalMap = List.length heightMap ->
  normal_step heightMap textureSize x y normalMap =
  Some (<[ (y * textureSize + x)%nat :=
             vadds (vscale (normal_spec heightMap textureSize x y) 0.5) 0.5 ]> normalMap).
Proof.
  intros Hlen Hx Hy Hnm. unfold normal_step, normal_spec, height_at.
  destruct (lookup_lt_is_Some_2 heightMap (y * textureSize + (x - 1))%nat) as [hl ->];
    [nia|].
  destruct (lookup_lt_is_Some_2 heightMap (y * textureSize + (x + 1))%nat) as [hr ->];
    [nia|].
  destruct (lookup_lt_is_Some_2 heightMap ((y + 1) * textureSize + x)%nat) as [hd ->];
    [nia|].
  destruct (lookup_lt_is_Some_2 heightMap ((y - 1) * textureSize + x)%nat) as [hu ->];
    [nia|].
  cbn. destruct (decide _) as [_|Hout]; [reflexivity|]. exfalso. apply Hout. nia.
Qed.

(** Where the read below the last interior point is out of range, the
    checked loop body fails whatever it is handed. *)
Lemma normal_step_out_of_range (heightMap : list Z) (textureSize : nat)
    (acc : option (list vec3)) :
  (3 <= textureSize)%nat ->
  (List.length heightMap < textureSize * textureSize - 1)%nat ->
  acc ≫= normal_step heightMap textureSize (textureSize - 1 - 1) (textureSize - 1 - 1)
  = None.
Proof.
  intros Hs Hlen. destruct acc as [nm|]; [|reflexivity]. cbn [mbind option_bind].
  unfold normal_step.
  assert (Hdown : heightMap !! ((textureSize - 1 - 1 + 1) * textureSize
                                + (textureSize - 1 - 1))%nat = None)
    by (apply lookup_ge_None_2; nia).
  rewrite Hdown.
  destruct (heightMap !! ((textureSize - 1 - 1) * textureSize
                          + (textureSize - 1 - 1 - 1))%nat) as [hl|]; [|reflexivity].
  destruct (heightMap !! ((textureSize - 1 - 1) * textureSize
                          + (textureSize - 1 - 1 + 1))%nat) as [hr|]; reflexivity.
Qed.

End CheckedLoops.

(** X3. With every element access of [GenerateNormalMap] checked against
    the size of its vector, the function runs through without an access
    out of range, and returns the normal map, whenever the heightmap has at
    least [textureSize * textureSize - 1] samples, as the
    [textureSize * textureSize] samples of [main] do.  With fewer samples
    and a texture size of at least 3 it reads outside the heightmap (at the
    latest below the last interior point). *)
Theorem GenerateNormalMap_accesses (heightMap : list Z) (textureSize : nat) :
  ((textureSize * textureSize - 1 <= List.length heightMap)%nat ->
   TerrainChecked.GenerateNormalMap_checked heightMap textureSize
   = Some (Terrain.GenerateNormalMap heightMap textureSize)) /\
  ((3 <= textureSize)%nat ->
   (List.length heightMap < textureSize * textureSize - 1)%nat ->
   TerrainChecked.GenerateNormalMap_checked heightMap textureSize = None).
Proof.
  split.
  - intros Hlen. unfold TerrainChecked.GenerateNormalMap_checked, Terrain.GenerateNormalMap.
    apply (for_range_checked 1 (textureSize - 1) _ _
             (fun nm => List.length nm = List.length heightMap)).
    + intros y nm Hy Hnm.
      apply (for_range_checked 1 (textureSize - 1) _ _
               (fun nm => List.length nm = List.length heightMap)); [|exact Hnm].
      intros x nm' Hx Hnm'. cbn [mbind option_bind].
      rewrite normal_step_in_range by done.
      split; [reflexivity|]. by rewrite length_insert.
    + apply length_replicate.
  - intros Hs Hlen. unfold TerrainChecked.GenerateNormalMap_checked.
    rewrite for_range_last by lia. rewrite for_range_last by lia.
    by apply normal_step_out_of_range.
Qed.

Lemma GenerateNormalMap_accesses_witness :
  TerrainChecked.GenerateNormalMap_checked [0; 10; 20; 30; 40; 50; 60; 70; 255]%Z 3
  = Some (Terrain.GenerateNormalMap [0; 10; 20; 30; 40; 50; 60; 70; 255]%Z 3) /\
  TerrainChecked.GenerateNormalMap_checked [0; 10; 20; 30; 40; 50; 60]%Z 3 = None.
Proof.
  split.
  - apply (GenerateNormalMap_accesses [0; 10; 20; 30; 40; 50; 60; 70; 255]%Z 3).
    cbn. lia.
  - apply (GenerateNormalMap_accesses [0; 10; 20; 30; 40; 50; 60]%Z 3); cbn; lia.
Defined.

Section NormalMapRange.
Import Glm Terrain.

(** Every index either belongs to an interior point or to none. *)
Lemma interior_index_dec (textureSize i : nat) :
  (Terrain.interior textureSize (i mod textureSize) (i / textureSize) /\
   i = (i / textureSize * textureSize + i mod textureSize)%nat) \/
  ~ (exists x y, Terrain.interior textureSize x y /\ i = (y * textureSize + x)%nat).
Proof.
  unfold interior.
  destruct (decide ((1 <= i mod textureSize <= textureSize - 2)%nat /\
                    (1 <= i / textureSize <= textureSize - 2)%nat)) as [Hin|Hout].
  - left. split; [exact Hin|].
    rewrite (Nat.div_mod_eq i textureSize) at 1. lia.
  - right. intros (x & y & [Hx Hy] & ->). apply Hout.
    rewrite (Nat.add_comm (y * textureSize) x).
    rewrite Nat.Div0.mod_add, Nat.div_add by lia.
    rewrite Nat.mod_small, Nat.div_small by lia. lia.
Qed.

Lemma stored_normal_range (heightMap : list Z) (textureSize x y : nat) :
  Forall (fun b => (0 <= b <= 255)%Z) heightMap ->
  let c := vadds (vscale (normal_spec heightMap textureSize x y) 0.5) 0.5 in
  0 <= vx c <= 1 /\ 0 <= vy c <= 1 /\ (1 + / sqrt 3) / 2 <= vz c <= 1.
Proof.
  intros Hall. cbv zeta. unfold normal_spec.
  set (dx := height_at _ _ - height_at _ _).
  set (dy := height_at _ _ - height_at _ _).
  destruct (normalize_components dx dy) as (Hx & Hy & Hz & Hz3).
  assert (Hdx : -1 <= dx <= 1).
  { unfold dx.
    pose proof (height_at_range heightMap (y * textureSize + (x - 1)) Hall).
    pose proof (height_at_range heightMap (y * textureSize + (x + 1)) Hall). lra. }
  assert (Hdy : -1 <= dy <= 1).
  { unfold dy.
    pose proof (height_at_range heightMap ((y - 1) * textureSize + x) Hall).
    pose proof (height_at_range heightMap ((y + 1) * textureSize + x) Hall). lra. }
  specialize (Hz3 Hdx Hdy).
  unfold vadds, vscale. cbn [vx vy vz]. repeat split; lra.
Qed.

(** The bytes of a generated heightmap are bytes. *)
Lemma GenerateHeightMap_bytes (noise : R -> R -> R) (textureSize : nat) (scale : R)
    (octaves : nat) (pers lac : R) :
  Forall (fun b => (0 <= b <= 255)%Z)
         (GenerateHeightMap noise textureSize scale octaves pers lac).
Proof.
  destruct (GenerateHeightMap_writes noise textureSize scale octaves pers lac)
    as [Hlen Hcell].
  apply Forall_lookup. intros i b Hi.
  assert (Hlt : (i < textureSize * textureSize)%nat).
  { rewrite <- Hlen. by apply lookup_lt_is_Some; eexists. }
  assert (Hs : (0 < textureSize)%nat) by lia.
  assert (Hm : (i mod textureSize < textureSize)%nat) by (apply Nat.mod_upper_bound; lia).
  assert (Hd : (i / textureSize < textureSize)%nat) by (apply Nat.Div0.div_lt_upper_bound; lia).
  pose proof (Hcell _ _ Hm Hd) as Hc.
  replace (i / textureSize * textureSize + i mod textureSize)%nat with i in Hc
    by (rewrite (Nat.div_mod_eq i textureSize) at 1; lia).
  rewrite Hi in Hc. injection Hc as ->.
  unfold uchar_cast. pose proof (Z.mod_pos_bound (Ztrunc
    (FBM noise (INR (i mod textureSize) * scale) (INR (i / textureSize) * scale)
       octaves lac pers * 255)) 256 ltac:(lia)). lia.
Qed.

End NormalMapRange.

(** X4. For a heightmap of [textureSize * textureSize] bytes, every cell of
    the normal map holds a colour: its three components are between 0 and
    1.  At an interior point the blue component, the remapped z of the
    normal, is at least [(1 + 1/sqrt 3) / 2] (about 0.79): the height
    differences are at most 1 in size, so the normal never leans further. *)
Theorem normal_map_colours (heightMap : list Z) (textureSize i : nat) (c : Glm.vec3) :
  List.length heightMap = (textureSize * textureSize)%nat ->
  Forall (fun b => (0 <= b <= 255)%Z) heightMap ->
  Terrain.GenerateNormalMap heightMap textureSize !! i = Some c ->
  0 <= Glm.vx c <= 1 /\ 0 <= Glm.vy c <= 1 /\ 0 <= Glm.vz c <= 1 /\
  (forall x y, Terrain.interior textureSize x y -> i = (y * textureSize + x)%nat ->
     (1 + / sqrt 3) / 2 <= Glm.vz c).
Proof.
  intros Hlen Hall Hc.
  destruct (GenerateNormalMap_cells heightMap textureSize) as (Hl & Hin & Hout).
  assert (Hi : (i < List.length heightMap)%nat).
  { rewrite <- Hl. by apply lookup_lt_is_Some; eexists. }
  assert (H3 : 0 < / sqrt 3) by (apply Rinv_0_lt_compat, sqrt_lt_R0; lra).
  destruct (interior_index_dec textureSize i) as [[Hint Heq]|Hnot].
  - rewrite Heq, (Hin _ _ Hint) in Hc by (rewrite <- Heq; exact Hi).
    injection Hc as <-.
    destruct (stored_normal_range heightMap textureSize
                (i mod textureSize) (i / textureSize) Hall) as (Hx & Hy & Hz).
    repeat split; try lra. intros; lra.
  - rewrite (Hout i Hnot), lookup_replicate_2 in Hc by exact Hi.
    injection Hc as <-. cbn. repeat split; try lra.
    intros x y Hint ->. exfalso. apply Hnot. eauto.
Qed.

Lemma normal_map_colours_witness :
  let c := Glm.vadds (Glm.vscale
             (Terrain.normal_spec [0; 10; 20; 30; 40; 50; 60; 70; 255]%Z 3 1 1) 0.5) 0.5 in
  0 <= Glm.vx c <= 1 /\ 0 <= Glm.vy c <= 1 /\ (1 + / sqrt 3) / 2 <= Glm.vz c <= 1.
Proof.
  cbv zeta.
  destruct (GenerateNormalMap_cells [0; 10; 20; 30; 40; 50; 60; 70; 255]%Z 3)
    as (_ & Hcell & _).
  assert (Hint : Terrain.interior 3 1 1) by (unfold Terrain.interior; lia).
  specialize (Hcell 1%nat 1%nat Hint ltac:(cbn; lia)).
  destruct (normal_map_colours [0; 10; 20; 30; 40; 50; 60; 70; 255]%Z 3 4 _ eq_refl
              ltac:(repeat (apply Forall_cons; split; [lia|]); apply Forall_nil_2)
              Hcell)
    as (Hx & Hy & Hz & Hlow).
  split; [exact Hx|]. split; [exact Hy|]. split; [|apply Hz].
  apply (Hlow 1%nat 1%nat Hint eq_refl).
Defined.

(** X5. The two start-up steps of [main] composed: whatever the noise
    primitive and the parameters, the normal map derived from the generated
    heightmap has [textureSize * textureSize] cells and each of them is a
    colour with components between 0 and 1. *)
Theorem generated_normal_map (noise : R -> R -> R) (textureSize : nat) (scale : R)
    (octaves : nat) (persistence lacunarity : R) :
  let heightMap :=
    Terrain.GenerateHeightMap noise textureSize scale octaves persistence lacunarity in
  let normalMap := Terrain.GenerateNormalMap heightMap textureSize in
  List.length normalMap = (textureSize * textureSize)%nat /\
  Forall (fun c => 0 <= Glm.vx c <= 1 /\ 0 <= Glm.vy c <= 1 /\ 0 <= Glm.vz c <= 1)
         normalMap.
Proof.
  intros heightMap normalMap.
  destruct (GenerateHeightMap_writes noise textureSize scale octaves persistence lacunarity)
    as [Hlen _]. fold heightMap in Hlen.
  destruct (GenerateNormalMap_cells heightMap textureSize) as (Hl & Hin & Hout).
  split; [subst normalMap; congruence|].
  apply Forall_lookup. intros i c Hc.
  assert (Hi : (i < List.length heightMap)%nat).
  { rewrite <- Hl. by apply lookup_lt_is_Some; eexists. }
  assert (H3 : 0 < / sqrt 3) by (apply Rinv_0_lt_compat, sqrt_lt_R0; lra).
  destruct (interior_index_dec textureSize i) as [[Hint Heq]|Hnot].
  - subst normalMap. rewrite Heq, (Hin _ _ Hint) in Hc by (rewrite <- Heq; exact Hi).
    injection Hc as <-.
    destruct (stored_normal_range heightMap textureSize
                (i mod textureSize) (i / textureSize)) as (Hx & Hy & Hz).
    { apply GenerateHeightMap_bytes. }
    repeat split; lra.
  - subst normalMap. rewrite (Hout i Hnot), lookup_replicate_2 in Hc by exact Hi.
    injection Hc as <-. cbn. repeat split; lra.
Qed.

(** X6. A heightmap that is flat (every sample the same byte) gives the
    neutral normal colour (0.5, 0.5, 1) at every interior point. *)
Theorem flat_heightmap_normals (b : Z) (textureSize x y : nat) :
  Terrain.interior textureSize x y ->
  Terrain.GenerateNormalMap (replicate (textureSize * textureSize) b) textureSize
    !! (y * textureSize + x)%nat = Some (Glm.Vec3 0.5 0.5 1).
Proof.
  intros [Hx Hy].
  destruct (GenerateNormalMap_cells (replicate (textureSize * textureSize) b) textureSize)
    as (_ & Hin & _).
  rewrite Hin; [|by split|rewrite length_replicate; nia].
  f_equal. unfold Terrain.normal_spec.
  assert (Hh : forall i, (i < textureSize * textureSize)%nat ->
                 Terrain.height_at (replicate (textureSize * textureSize) b) i
                 = IZR b / 255).
  { intros i Hi. unfold Terrain.height_at. by rewrite lookup_replicate_2. }
  rewrite !Hh by nia.
  replace (IZR b / 255 - IZR b / 255) with 0 by lra.
  unfold Glm.normalize, Glm.vscale, Glm.vadds, Glm.dot. cbn [Glm.vx Glm.vy Glm.vz].
  replace (0 * 0 + 0 * 0 + 1 * 1) with 1 by lra.
  rewrite sqrt_1, Rinv_1. f_equal; lra.
Qed.

Lemma flat_heightmap_normals_witness :
  Terrain.GenerateNormalMap (replicate (4 * 4) 128%Z) 4 !! (2 * 4 + 1)%nat
  = Some (Glm.Vec3 0.5 0.5 1).
Proof.
  apply (flat_heightmap_normals 128 4 1 2). unfold Terrain.interior. lia.
Defined.

(** ** The blur loop and the draw calls of a frame *)
Section BloomMore.
Import Bloom Frame.

(** The [k]-th draw call of the blur loop started in state [s]. *)
Lemma blur_loop_nth (n : nat) (s : blur_state) (k : nat) (p : blur_pass) :
  fst (blur_loop n s) !! k = Some p ->
  let h := if Nat.even k then horizontal s else negb (horizontal s) in
  bp_horizontal p = h /\
  bp_target p = pingpongFBO h /\
  bp_source p = (if (k =? 0)%nat && first_iteration s then downSampledTex
                 else pingpongColorbuffers (negb h)).
Proof.
  revert s k. induction n as [|n IH]; intros s k; [by destruct k|].
  rewrite blur_loop_S. cbn [fst]. destruct k as [|k].
  - intros [= <-]. cbn. by destruct (first_iteration s).
  - intros Hk. apply IH in Hk. cbn [blur_body snd horizontal first_iteration] in Hk.
    rewrite Nat.even_succ, <- Nat.negb_even. cbn [Nat.eqb andb].
    destruct (first_iteration s), (Nat.even k), (horizontal s), (k =? 0)%nat;
      exact Hk.
Qed.

Lemma blur_loop_length (n : nat) (s : blur_state) :
  List.length (fst (blur_loop n s)) = n.
Proof.
  revert s. induction n as [|n IH]; intros s; [done|].
  rewrite blur_loop_S. cbn [fst List.length]. by rewrite IH.
Qed.

Lemma blur_loop_first (n : nat) (s : blur_state) :
  first_iteration (snd (blur_loop (S n) s)) = false.
Proof.
  revert s. induction n as [|n IH]; intros s.
  - cbn. by destruct (first_iteration s).
  - rewrite blur_loop_S. cbn [snd]. apply IH.
Qed.

(** How many of the draw calls of the loop blur horizontally. *)
Lemma blur_loop_horizontal_count (n : nat) (s : blur_state) :
  List.length (List.filter bp_horizontal (fst (blur_loop n s))) =
  if horizontal s then ((n + 1) / 2)%nat else (n / 2)%nat.
Proof.
  revert s. induction n as [|n IH]; intros [h f].
  - by destruct h.
  - rewrite blur_loop_S. cbn [fst blur_body snd List.filter bp_horizontal horizontal].
    destruct h; cbn [List.length negb]; rewrite IH; cbn [horizontal].
    + replace (S n + 1)%nat with (n + 1 * 2)%nat by lia.
      rewrite Nat.div_add by lia. lia.
    + by replace (S n) with (n + 1)%nat by lia.
Qed.

(** The running check implies the property it checks. *)
Lemma fed_sound (ds : list draw) (rendered : list texture) :
  fed rendered ds = true ->
  forall (before after : list draw) (d : draw) (t : texture),
    ds = before ++ d :: after ->
    In (Target t) (d_samples d) ->
    is_render_target t = true ->
    t ∈ rendered \/ exists d', In d' before /\ In t (rendered_by (d_target d')).
Proof.
  revert rendered. induction ds as [|d0 ds IH]; intros rendered Hfed before after d t Heq Hs Ht.
  - by destruct before.
  - cbn [fed] in Hfed. apply andb_prop in Hfed as [Hd0 Hrest].
    destruct before as [|b before]; cbn in Heq; injection Heq as <- Heq.
    + left. rewrite forallb_forall in Hd0. specialize (Hd0 _ Hs).
      cbn [sample_fed] in Hd0. rewrite Ht in Hd0. cbn in Hd0.
      by apply bool_decide_eq_true in Hd0.
    + destruct (IH _ Hrest before after d t Heq Hs Ht) as [Hin|(d' & Hd' & Hr)].
      * apply elem_of_app in Hin as [Hin|Hin]; [|by left].
        right. exists d0. split; [by left|]. by apply list_elem_of_In.
      * right. exists d'. split; [by right|done].
Qed.

Lemma fed_blur_loop (n : nat) (s : blur_state) (rendered : list texture)
    (rest : list draw) :
  blur_fed s rendered ->
  (forall rendered', (forall t, t ∈ rendered -> t ∈ rendered') ->
     blur_fed (snd (blur_loop n s)) rendered' -> fed rendered' rest = true) ->
  fed rendered
      (List.map (fun p => Draw (Some (bp_target p)) [Target (bp_source p)])
                (fst (blur_loop n s)) ++ rest) = true.
Proof.
  revert s rendered. induction n as [|n IH]; intros [h f] rendered Hs Hrest.
  - cbn. by apply Hrest.
  - rewrite blur_loop_S in *.
    cbn [fst snd blur_body List.map app fed d_samples d_target forallb
         bp_source bp_target sample_fed rendered_by] in *.
    apply andb_true_intro. split.
    + rewrite andb_true_r. unfold blur_fed in Hs. cbn [first_iteration horizontal] in Hs.
      destruct f; cbn [is_render_target negb orb]; by apply bool_decide_eq_true_2.
    + apply IH.
      * unfold blur_fed. cbn [first_iteration horizontal].
        destruct f; rewrite negb_involutive; apply list_elem_of_here.
      * intros rendered' Hsub Hfinal. apply Hrest; [|exact Hfinal].
        intros t Ht. apply Hsub. by apply list_elem_of_further.
Qed.

End BloomMore.

(** X7. The blur loop issues exactly [amount] draw calls.  Call number [k]
    (from 0) blurs horizontally when [k] is even and vertically when it is
    odd, renders into [pingpongFBO[1]] when even and [pingpongFBO[0]] when
    odd, and samples the downsampled texture when [k = 0] and otherwise the
    colour buffer the call before it rendered. *)
Theorem blur_pass_closed_form (amount k : nat) :
  (k < amount)%nat ->
  List.length (fst (Bloom.blur_stage amount)) = amount /\
  exists p, fst (Bloom.blur_stage amount) !! k = Some p /\
    Bloom.bp_horizontal p = Nat.even k /\
    Bloom.bp_target p = Bloom.pingpongFBO (Nat.even k) /\
    Bloom.bp_source p =
      match k with
      | O => Bloom.downSampledTex
      | S k' => Bloom.pingpongColorbuffers (Nat.even k')
      end /\
    (forall k' q, k = S k' -> fst (Bloom.blur_stage amount) !! k' = Some q ->
       Bloom.bp_source p = Bloom.attachment (Bloom.bp_target q)).
Proof.
  intros Hk. unfold Bloom.blur_stage.
  pose proof (blur_loop_length amount Bloom.blur_init) as Hlen.
  split; [exact Hlen|].
  destruct (lookup_lt_is_Some_2 (fst (Bloom.blur_loop amount Bloom.blur_init)) k)
    as [p Hp]; [by rewrite Hlen|].
  exists p. split; [exact Hp|].
  destruct (blur_loop_nth _ _ _ _ Hp) as (Hh & Ht & Hs).
  cbn [Bloom.blur_init Bloom.horizontal Bloom.first_iteration] in Hh, Ht, Hs.
  assert (Hev : (if Nat.even k then true else negb true) = Nat.even k)
    by (by destruct (Nat.even k)).
  rewrite Hev in Hh, Ht, Hs.
  assert (Hsrc : Bloom.bp_source p =
                 match k with
                 | O => Bloom.downSampledTex
                 | S k' => Bloom.pingpongColorbuffers (Nat.even k')
                 end).
  { rewrite Hs. destruct k as [|k']; [reflexivity|].
    cbn [Nat.eqb andb]. by rewrite Nat.even_succ, <- Nat.negb_even, negb_involutive. }
  repeat split; try done.
  intros k' q -> Hq. rewrite Hsrc.
  destruct (blur_loop_nth _ _ _ _ Hq) as (_ & -> & _).
  cbn [Bloom.blur_init Bloom.horizontal Bloom.attachment].
  by destruct (Nat.even k').
Qed.

Lemma blur_pass_closed_form_witness :
  exists p, fst (Bloom.blur_stage Bloom.gaussianBlurIntensity) !! 3%nat = Some p /\
    Bloom.bp_horizontal p = false /\
    Bloom.bp_target p = Bloom.pingpongFBO false /\
    Bloom.bp_source p = Bloom.pingpongColorbuffers true.
Proof.
  destruct (blur_pass_closed_form Bloom.gaussianBlurIntensity 3)
    as (_ & p & Hp & Hh & Ht & Hs & _); [unfold Bloom.gaussianBlurIntensity; lia|].
  exists p. split; [exact Hp|]. split; [exact Hh|]. split; [exact Ht|exact Hs].
Defined.

(** X8. Of the [amount] draw calls of the blur loop, [(amount + 1) / 2] blur
    horizontally and [amount / 2] vertically: an even count, like the
    program's 100, blurs as often in both directions, an odd count once
    more horizontally. *)
Theorem blur_directions (amount : nat) :
  let passes := fst (Bloom.blur_stage amount) in
  List.length (List.filter Bloom.bp_horizontal passes) = ((amount + 1) / 2)%nat /\
  List.length (List.filter (fun p => negb (Bloom.bp_horizontal p)) passes)
    = (amount / 2)%nat.
Proof.
  cbv zeta. unfold Bloom.blur_stage.
  pose proof (blur_loop_horizontal_count amount Bloom.blur_init) as Hh.
  cbn [Bloom.blur_init Bloom.horizontal] in Hh.
  split; [exact Hh|].
  pose proof (blur_loop_length amount Bloom.blur_init) as Hlen.
  pose proof (List.filter_length Bloom.bp_horizontal
                (fst (Bloom.blur_loop amount Bloom.blur_init))) as Hsum.
  rewrite Hh, Hlen in Hsum.
  assert (Hdiv : ((amount + 1) / 2 + amount / 2 = amount)%nat).
  { pose proof (Nat.div_mod_eq amount 2). pose proof (Nat.div_mod_eq (amount + 1) 2).
    pose proof (Nat.mod_upper_bound amount 2 ltac:(lia)).
    pose proof (Nat.mod_upper_bound (amount + 1) 2 ltac:(lia)). lia. }
  lia.
Qed.

(** X9. In a frame with at least one blur iteration every framebuffer
    attachment that a draw call samples has been rendered by an earlier
    draw call of the same frame.  With no blur iteration this fails: the
    composite pass samples [pingpongColorbuffers[0]], which nothing in the
    frame has rendered. *)
Theorem frame_dataflow (amount : nat) :
  Frame.fed_by_earlier (Frame.frame_draws amount) <-> (1 <= amount)%nat.
Proof.
  split.
  - intros Hfed. destruct amount as [|n]; [|lia]. exfalso.
    destruct (Hfed (firstn 4 (Frame.frame_draws 0)) []
                (Frame.Draw None
                   [Frame.Target (Bloom.colorBuffer false);
                    Frame.Target (Bloom.pingpongColorbuffers false);
                    Frame.Target Bloom.downSampledTex;
                    Frame.Target Bloom.colorGradientTex;
                    Frame.Target Bloom.lensDirtTex;
                    Frame.Target Bloom.starBurstTex])
                (Bloom.pingpongColorbuffers false))
      as (d' & Hd' & Hr); [reflexivity|cbn; tauto|reflexivity|].
    cbn in Hd'. destruct Hd' as [<-|[<-|[<-|[<-|[]]]]]; cbn in Hr;
      repeat destruct Hr as [Hr|Hr]; try discriminate Hr; try contradiction.
  - intros Hn before after d t Heq Hs Ht.
    assert (Hfed : Frame.fed [] (Frame.frame_draws amount) = true).
    { unfold Frame.frame_draws.
      cbn [app Frame.fed Frame.d_samples Frame.d_target forallb Frame.sample_fed
           Frame.rendered_by Frame.is_render_target negb orb andb].
      rewrite bool_decide_eq_true_2
        by (repeat first [apply list_elem_of_here | apply list_elem_of_further]).
      cbn [andb]. unfold Bloom.blur_stage. apply fed_blur_loop.
      - unfold Frame.blur_fed. cbn. apply list_elem_of_here.
      - intros rendered' Hsub Hfinal. destruct amount as [|n]; [lia|].
        unfold Frame.blur_fed in Hfinal. rewrite blur_loop_first in Hfinal.
        unfold Bloom.composite_bloom_input, Bloom.blur_stage.
        cbn [Frame.fed Frame.d_samples Frame.d_target forallb Frame.sample_fed
             Frame.is_render_target negb orb andb].
        rewrite !bool_decide_eq_true_2; [reflexivity| | |];
          first [exact Hfinal
                | apply Hsub;
                  repeat first [apply list_elem_of_here | apply list_elem_of_further]]. }
    destruct (fed_sound _ _ Hfed before after d t Heq Hs Ht) as [Hin|H]; [|exact H].
    by apply elem_of_nil in Hin.
Qed.

Lemma frame_dataflow_witness :
  Frame.fed_by_earlier (Frame.frame_draws Bloom.gaussianBlurIntensity).
Proof.
  apply (frame_dataflow Bloom.gaussianBlurIntensity).
  unfold Bloom.gaussianBlurIntensity. lia.
Defined.

(** X10. No draw call of a frame samples a texture it is rendering into,
    whatever the number of blur iterations. *)
Theorem frame_no_feedback (amount : nat) (d : Frame.draw) (t : Bloom.texture) :
  In d (Frame.frame_draws amount) ->
  In (Frame.Target t) (Frame.d_samples d) ->
  ~ In t (Frame.rendered_by (Frame.d_target d)).
Proof.
  unfold Frame.frame_draws. intros Hd Hs Hr.
  apply in_app_or in Hd as [Hd|Hd].
  { cbn in Hd. destruct Hd as [<-|[<-|[<-|[<-|[]]]]]; cbn in Hs, Hr;
      repeat destruct Hs as [Hs|Hs]; try discriminate Hs; try contradiction.
    injection Hs as <-. repeat destruct Hr as [Hr|Hr]; try discriminate Hr; contradiction. }
  apply in_app_or in Hd as [Hd|Hd].
  - apply in_map_iff in Hd as (p & <- & Hp). cbn in Hs, Hr.
    destruct Hs as [[= <-]|[]].
    pose proof (blur_loop_no_feedback _ _ _ Hp) as Hne.
    apply list_elem_of_In, list_elem_of_lookup in Hp as [k Hk].
    destruct (blur_loop_nth _ _ _ _ Hk) as (_ & Ht & _).
    rewrite Ht in Hr, Hne. cbn in Hr, Hne. destruct Hr as [Hr|[]]. congruence.
  - cbn in Hd. destruct Hd as [<-|[]]. cbn in Hr. contradiction.
Qed.

Lemma frame_no_feedback_witness :
  ~ In (Bloom.colorBuffer true) (Frame.rendered_by (Some Bloom.downSampledFBO)).
Proof.
  apply (frame_no_feedback Bloom.gaussianBlurIntensity
           (Frame.Draw (Some Bloom.downSampledFBO) [Frame.Target (Bloom.colorBuffer true)])).
  - unfold Frame.frame_draws. apply in_or_app. left. cbn. tauto.
  - cbn. tauto.
Defined.

(** X11. The [aspectRatio] uniform is computed by a division of unsigned
    integers: for every screen that is at least as wide as high and less
    than twice as wide, it is 1, and so smaller than the aspect ratio the
    projection uses unless the screen is square. *)
Theorem aspectRatio_truncated (width height : Z) :
  (0 < height <= width)%Z -> (width < 2 * height)%Z ->
  Frame.aspectRatio_uniform width height = 1 /\
  (Frame.projection_aspect width height = 1 <-> width = height).
Proof.
  intros [Hh Hw] Hlt. unfold Frame.aspectRatio_uniform, Frame.projection_aspect.
  assert (Hq : (width / height = 1)%Z).
  { symmetry. apply (Z.div_unique_pos width height 1 (width - height)); lia. }
  rewrite Hq. split; [reflexivity|].
  assert (Hp : 0 < IZR height) by (apply IZR_lt; lia).
  split.
  - intros He. apply eq_IZR.
    apply (Rmult_eq_compat_r (IZR height)) in He.
    replace (IZR width / IZR height * IZR height) with (IZR width) in He by (field; lra).
    lra.
  - intros ->. field. lra.
Qed.

Lemma aspectRatio_truncated_witness :
  Frame.aspectRatio_uniform Frame.SCR_WIDTH Frame.SCR_HEIGHT = 1 /\
  Frame.projection_aspect Frame.SCR_WIDTH Frame.SCR_HEIGHT <> 1.
Proof.
  destruct (aspectRatio_truncated Frame.SCR_WIDTH Frame.SCR_HEIGHT)
    as [Hu Hp]; [unfold Frame.SCR_WIDTH, Frame.SCR_HEIGHT; lia ..|].
  split; [exact Hu|]. intros He. apply Hp in He. discriminate He.
Defined.

(** ** The sun controller *)
Section SunMore.
Import Glm Sun.

Lemma EaseInOutSine_even_seconds (k : nat) : EaseInOutSine (2 * INR k) = 0.
Proof.
  unfold EaseInOutSine.
  replace (PI * (2 * INR k)) with (0 + 2 * INR k * PI) by ring.
  rewrite cos_period, cos_0. lra.
Qed.

Lemma mix3_0 (a b : vec3) : mix3 a b 0 = a.
Proof. destruct a as [x y z]. unfold mix3, mix. cbn [vx vy vz]. f_equal; ring. Qed.

Lemma wait_update_rest (dt : R) (s : SunState) :
  lightDiffuse (wait_update dt s) = lightDiffuse s /\
  sunVel (wait_update dt s) = sunVel s.
Proof. unfold wait_update. by destruct (Rgeb _ _). Qed.

Lemma horizon_check_rest (s : SunState) :
  lightDiffuse (horizon_check s) = lightDiffuse s /\
  sunVel (horizon_check s) = sunVel s /\
  (bWaiting s = true -> bWaiting (horizon_check s) = true).
Proof.
  unfold horizon_check.
  destruct (Rltb _ _ && _); [done|]. by destruct (Rgtb _ _ && _).
Qed.

(** The horizon check changes the flags only at a threshold. *)
Lemma horizon_check_changes (s : SunState) :
  bReverseSun (horizon_check s) <> bReverseSun s \/
  bWaiting (horizon_check s) <> bWaiting s ->
  (sunAngle s < 5 /\ bReverseSun s = false) \/
  (sunAngle s > 175 /\ bReverseSun s = true).
Proof.
  unfold horizon_check.
  destruct (Rltb (sunAngle s) 5 && negb (bReverseSun s)) eqn:E1.
  { intros _. left. apply andb_prop in E1 as [E1 E1'].
    apply Rltb_lt in E1. by destruct (bReverseSun s). }
  destruct (Rgtb (sunAngle s) 175 && bReverseSun s) eqn:E2.
  { intros _. right. apply andb_prop in E2 as [E2 E2'].
    apply Rltb_lt in E2. split; [lra|done]. }
  intros [H|H]; by destruct H.
Qed.

Lemma move_update_lightDiffuse (dt : R) (s : SunState) :
  lightDiffuse (move_update dt s) = mix3 (lightDiffuse s) ORANGE (EaseInOutSine dt * 10) \/
  lightDiffuse (move_update dt s) = mix3 (lightDiffuse s) WHITE (EaseInOutSine dt * 10).
Proof. unfold move_update. destruct (_ || _); [by left|by right]. Qed.

Lemma run_cons (st : bool) (dt : R) (dts : list R) (s : SunState) :
  run st (dt :: dts) s = run st dts (AnimateSun st dt s).
Proof. reflexivity. Qed.

Lemma light_angle_range (p : vec3) : 0 <= light_angle p <= 180.
Proof.
  unfold light_angle, degrees.
  pose proof (acos_bound (dot (normalize p) (normalize (Vec3 1 0 1)))) as [H0 H1].
  pose proof PI_RGT_0 as HPI.
  assert (Hk : 0 < 180 / PI) by (apply Rdiv_lt_0_compat; lra).
  split; [nra|].
  replace 180 with (PI * (180 / PI)) at 2 by (field; lra).
  by apply Rmult_le_compat_r; [lra|].
Qed.

End SunMore.

(** X12. On [0, 1] the easing function rises from 0 to 1 without ever
    falling, and it is symmetric about the middle:
    [EaseInOutSine(1 - x) = 1 - EaseInOutSine(x)]. *)
Theorem EaseInOutSine_eases (x y : R) :
  0 <= x -> x <= y -> y <= 1 ->
  Sun.EaseInOutSine 0 = 0 /\ Sun.EaseInOutSine 1 = 1 /\
  Sun.EaseInOutSine x <= Sun.EaseInOutSine y /\
  Sun.EaseInOutSine (1 - x) = 1 - Sun.EaseInOutSine x.
Proof.
  intros Hx Hxy Hy. pose proof PI_RGT_0 as HPI.
  split; [|split; [apply EaseInOutSine_1|split]].
  - unfold Sun.EaseInOutSine. rewrite Rmult_0_r, cos_0. lra.
  - unfold Sun.EaseInOutSine.
    assert (cos (PI * y) <= cos (PI * x)) by (apply cos_decr_1; nra).
    lra.
  - unfold Sun.EaseInOutSine.
    replace (PI * (1 - x)) with (- (PI * x) + PI) by ring.
    rewrite neg_cos, cos_neg. lra.
Qed.

Lemma EaseInOutSine_eases_witness :
  Sun.EaseInOutSine 0.25 <= Sun.EaseInOutSine 0.5 /\
  Sun.EaseInOutSine (1 - 0.25) = 1 - Sun.EaseInOutSine 0.25.
Proof.
  destruct (EaseInOutSine_eases 0.25 0.5) as (_ & _ & Hm & Hsym); [lra..|].
  split; [exact Hm|exact Hsym].
Defined.

(** X13. The easing function is applied to the frame time itself, and it
    is even and has period 2: frame times [dt], [-dt] and [dt + 2] blend
    alike.  In a frame that lasts an even number of seconds a moving sun
    keeps its colour and exposure unchanged. *)
Theorem EaseInOutSine_periodic (x : R) (k : nat) (s : Sun.SunState) :
  Sun.EaseInOutSine (x + 2) = Sun.EaseInOutSine x /\
  Sun.EaseInOutSine (- x) = Sun.EaseInOutSine x /\
  Sun.exposure (Sun.move_update (2 * INR k) s) = Sun.exposure s /\
  Sun.lightDiffuse (Sun.move_update (2 * INR k) s) = Sun.lightDiffuse s.
Proof.
  split; [|split; [|split]].
  - unfold Sun.EaseInOutSine.
    replace (PI * (x + 2)) with (PI * x + 2 * INR 1 * PI) by (simpl; ring).
    by rewrite cos_period.
  - unfold Sun.EaseInOutSine.
    replace (PI * - x) with (- (PI * x)) by ring. by rewrite cos_neg.
  - destruct (move_update_exposure (2 * INR k) s) as [-> | ->];
      rewrite EaseInOutSine_even_seconds; unfold Glm.mix; ring.
  - destruct (move_update_lightDiffuse (2 * INR k) s) as [-> | ->];
      rewrite EaseInOutSine_even_seconds, Rmult_0_l; apply mix3_0.
Qed.

(** X14. An update of the animated sun changes the travel-direction flag,
    or takes the controller from Moving to Waiting, only at a threshold:
    the angle its horizon check reads is below 5 degrees with the sun not
    reversed, or above 175 degrees with the sun reversed. *)
Theorem waiting_only_at_horizon (deltaTime : R) (s : Sun.SunState) :
  let s' := Sun.AnimateSun Sun.bIsSunStationary deltaTime s in
  Sun.bReverseSun s' <> Sun.bReverseSun s \/
  (Sun.phase Sun.bIsSunStationary s = Sun.Moving /\
   Sun.phase Sun.bIsSunStationary s' = Sun.Waiting) ->
  (Sun.checked_angle s < 5 /\ Sun.bReverseSun s = false) \/
  (Sun.checked_angle s > 175 /\ Sun.bReverseSun s = true).
Proof.
  intros s' H. subst s'. rewrite !phase_animated in H.
  unfold Sun.AnimateSun, Sun.bIsSunStationary in H.
  destruct (moving_or_waiting_angle deltaTime s) as [Ha Hr].
  set (s1 := if Sun.bWaiting s then Sun.wait_update deltaTime s
             else Sun.move_update deltaTime s) in *.
  rewrite <- Ha, <- Hr. apply horizon_check_changes.
  destruct H as [H|[Hm Hw]]; [left; congruence|right].
  destruct (Sun.bWaiting s) eqn:Ews; [discriminate Hm|].
  subst s1. destruct (move_update_fields deltaTime s) as (_ & _ & _ & ->).
  rewrite Ews. by destruct (Sun.bWaiting (Sun.horizon_check _)).
Qed.

Lemma waiting_only_at_horizon_witness :
  let s := Sun.AnimateSun Sun.bIsSunStationary 8 Sun.initial in
  (Sun.checked_angle s < 5 /\ Sun.bReverseSun s = false) \/
  (Sun.checked_angle s > 175 /\ Sun.bReverseSun s = true).
Proof.
  apply (waiting_only_at_horizon 1). right. rewrite !phase_animated.
  destruct first_frame as (_ & _ & _ & _ & _ & ->).
  destruct second_frame as (_ & _ & _ & Hw).
  unfold Sun.run in Hw. cbn [fold_left] in Hw. rewrite Hw. done.
Defined.

(** X15. While the sun waits it stands still: an update that starts in the
    Waiting phase leaves the light position, the light colour, the
    exposure, the angular position [sunVel] and the stored angle as they
    are. *)
Theorem waiting_sun_is_frozen (deltaTime : R) (s : Sun.SunState) :
  Sun.phase Sun.bIsSunStationary s = Sun.Waiting ->
  let s' := Sun.AnimateSun Sun.bIsSunStationary deltaTime s in
  Sun.lightPos s' = Sun.lightPos s /\
  Sun.lightDiffuse s' = Sun.lightDiffuse s /\
  Sun.exposure s' = Sun.exposure s /\
  Sun.sunVel s' = Sun.sunVel s /\
  Sun.sunAngle s' = Sun.sunAngle s.
Proof.
  rewrite phase_animated. intros Hw. cbv zeta.
  unfold Sun.AnimateSun, Sun.bIsSunStationary.
  destruct (Sun.bWaiting s); [|discriminate Hw].
  destruct (horizon_check_fields (Sun.wait_update deltaTime s)) as (-> & -> & -> & _).
  destruct (horizon_check_rest (Sun.wait_update deltaTime s)) as (-> & -> & _).
  destruct (wait_update_fields deltaTime s) as (-> & -> & -> & _).
  by destruct (wait_update_rest deltaTime s) as (-> & ->).
Qed.

Lemma waiting_sun_is_frozen_witness :
  let s := Sun.run Sun.bIsSunStationary [8; 1] Sun.initial in
  Sun.lightPos (Sun.AnimateSun Sun.bIsSunStationary 0.5 s) = Sun.lightPos s /\
  Sun.exposure (Sun.AnimateSun Sun.bIsSunStationary 0.5 s) = Sun.exposure s.
Proof.
  cbv zeta.
  destruct (waiting_sun_is_frozen 0.5 (Sun.run Sun.bIsSunStationary [8; 1] Sun.initial))
    as (Hp & _ & He & _).
  - rewrite phase_animated. by destruct second_frame as (_ & _ & _ & ->).
  - split; [exact Hp|exact He].
Defined.

Section SunInvariants.
Import Glm Sun.

Lemma AnimateSun_timer (st : bool) (dt : R) (s : SunState) :
  timer s < idleTime /\ (bWaiting s = true \/ timer s = 0) ->
  timer (AnimateSun st dt s) < idleTime /\
  (bWaiting (AnimateSun st dt s) = true \/ timer (AnimateSun st dt s) = 0).
Proof.
  intros [Hlt Hw]. unfold AnimateSun. destruct st; [by split|].
  destruct (bWaiting s) eqn:Ews.
  - destruct (horizon_check_fields (wait_update dt s)) as (_ & _ & _ & ->).
    destruct (horizon_check_rest (wait_update dt s)) as (_ & _ & Hkeep).
    unfold wait_update in *. destruct (Rgeb (timer s + dt) idleTime) eqn:E.
    + cbn [timer]. unfold idleTime. split; [lra|by right].
    + apply Rgeb_lt in E. cbn [timer bWaiting] in *. split; [exact E|].
      left. apply Hkeep. exact Ews.
  - destruct Hw as [Hw|Hw]; [discriminate Hw|].
    destruct (horizon_check_fields (move_update dt s)) as (_ & _ & _ & ->).
    destruct (move_update_fields dt s) as (_ & -> & _).
    split; [exact Hlt|by right].
Qed.

Lemma AnimateSun_colour (st : bool) (dt : R) (s : SunState) :
  vx (lightDiffuse s) = 5 ->
  vx (lightDiffuse (AnimateSun st dt s)) = 5 /\
  (EaseInOutSine dt * 10 <= 1 ->
   2.5 <= vy (lightDiffuse s) <= 4.25 /\ 0.25 <= vz (lightDiffuse s) <= 2.75 ->
   2.5 <= vy (lightDiffuse (AnimateSun st dt s)) <= 4.25 /\
   0.25 <= vz (lightDiffuse (AnimateSun st dt s)) <= 2.75).
Proof.
  intros Hr. unfold AnimateSun. destruct st; [by split|].
  destruct (horizon_check_rest (if bWaiting s then wait_update dt s
                                else move_update dt s)) as (-> & _).
  destruct (bWaiting s).
  { destruct (wait_update_rest dt s) as (-> & _). by split. }
  pose proof (EaseInOutSine_range dt) as Hrange.
  destruct (move_update_lightDiffuse dt s) as [-> | ->];
    unfold mix3, ORANGE, WHITE, vscale, bloomFactor; cbn [vx vy vz].
  - split; [unfold mix; rewrite Hr; ring|].
    intros Hdt [Hg Hb]. split; apply mix_between; lra.
  - split; [unfold mix; rewrite Hr; ring|].
    intros Hdt [Hg Hb]. split; apply mix_between; lra.
Qed.

(** The position set by [move_update] for the angular position [v]. *)
Lemma AnimateSun_orbit (dt : R) (s : SunState) :
  (bWaiting s = false \/
   (lightPos s = Vec3 (sunRadius * - cos (sunVel s)) (sunRadius * sin (sunVel s))
                      (sunRadius * - cos (sunVel s)) /\
    0 <= sunAngle s <= 180)) ->
  let s' := AnimateSun bIsSunStationary dt s in
  lightPos s' = Vec3 (sunRadius * - cos (sunVel s')) (sunRadius * sin (sunVel s'))
                     (sunRadius * - cos (sunVel s')) /\
  0 <= sunAngle s' <= 180.
Proof.
  intros H. cbv zeta. unfold AnimateSun, bIsSunStationary.
  set (s1 := if bWaiting s then wait_update dt s else move_update dt s).
  destruct (horizon_check_fields s1) as (-> & _ & -> & _).
  destruct (horizon_check_rest s1) as (_ & -> & _).
  subst s1. destruct (bWaiting s) eqn:Ews.
  - destruct H as [H|[Hp Ha]]; [discriminate H|].
    destruct (wait_update_fields dt s) as (-> & _ & -> & _).
    destruct (wait_update_rest dt s) as (_ & ->). by split.
  - destruct (move_update_fields dt s) as (-> & _).
    split; [apply move_update_lightPos|apply light_angle_range].
Qed.

End SunInvariants.

Section SunSecondFrame.
Import Glm Sun.

Lemma EaseInOutSine_pos (dt : R) : 0 < dt <= 0.2 -> 0 < EaseInOutSine dt.
Proof.
  intros Hdt. pose proof PI_bounds as HPI.
  assert (Ha : 0 < PI * dt <= 0.63) by nra.
  pose proof (cos_upper (PI * dt) ltac:(lra)) as Hc.
  unfold EaseInOutSine.
  set (a := PI * dt) in *.
  assert (Hq : 0 < a * a < 1) by nra.
  replace (a * a * a * a) with (a * a * (a * a)) in Hc by ring.
  set (q := a * a) in *.
  assert (q * q < q) by nra.
  lra.
Qed.

Lemma move_update_horizon_colour (dt : R) (s : SunState) :
  light_angle (lightPos s) < 89.9 -> bReverseSun s = false ->
  lightDiffuse (move_update dt s) = mix3 (lightDiffuse s) ORANGE (EaseInOutSine dt * 10).
Proof.
  intros Ha Hr. unfold move_update. apply Rltb_lt in Ha. by rewrite Ha, Hr.
Qed.

Lemma run_exposure_from (st : bool) (dts : list R) (s : SunState) :
  exposure_in_bounds s ->
  Forall (fun dt => EaseInOutSine dt * 10 <= 1) dts ->
  exposure_in_bounds (run st dts s).
Proof.
  revert s. induction dts as [|dt dts IH]; intros s Hs Hall; [exact Hs|].
  apply Forall_cons in Hall as [Hdt Hall].
  rewrite run_cons. apply IH; [|exact Hall]. by apply AnimateSun_exposure.
Qed.

(** The first frame leaves the exposure at [maxExposure], whatever its
    length and whether the sun is stationary or not. *)
Lemma first_frame_exposure (st : bool) (dt : R) :
  exposure (AnimateSun st dt initial) = maxExposure.
Proof.
  destruct st; [reflexivity|].
  destruct (first_frame_any dt) as (_ & He & _). exact He.
Qed.

(** After an 8 second first frame, a second frame: the sun is near the
    horizon, so exposure and colour blend toward the dim, orange end. *)
Lemma second_frame_blend (dt : R) :
  let s := run bIsSunStationary [8; dt] initial in
  exposure s = mix maxExposure minExposure (EaseInOutSine dt * 10) /\
  lightDiffuse s = mix3 WHITE ORANGE (EaseInOutSine dt * 10).
Proof.
  cbv zeta. unfold run. cbn [fold_left].
  pose proof first_frame_angle as Hang.
  destruct first_frame as (_ & He & _ & _ & Hr & Hw).
  assert (Hc : lightDiffuse (AnimateSun bIsSunStationary 8 initial) = WHITE).
  { unfold AnimateSun, bIsSunStationary. cbn [bWaiting initial].
    destruct (horizon_check_rest (move_update 8 initial)) as (-> & _).
    destruct (move_update_lightDiffuse 8 initial) as [-> | ->];
      rewrite EaseInOutSine_8, Rmult_0_l; apply mix3_0. }
  set (s1 := AnimateSun bIsSunStationary 8 initial) in *.
  unfold AnimateSun, bIsSunStationary. rewrite Hw. cbv iota.
  destruct (horizon_check_fields (move_update dt s1)) as (_ & -> & _).
  destruct (horizon_check_rest (move_update dt s1)) as (-> & _).
  rewrite move_update_horizon, move_update_horizon_colour by (lra || done).
  by rewrite He, Hc.
Qed.

End SunSecondFrame.

(** X16. At the end of every frame the wait timer is below [idleTime], and
    it is zero whenever the sun is not waiting: the time of one wait never
    carries over into the next. *)
Theorem timer_invariant (stationary : bool) (deltaTimes : list R) :
  let s := Sun.run stationary deltaTimes Sun.initial in
  Sun.timer s < Sun.idleTime /\ (Sun.bWaiting s = true \/ Sun.timer s = 0).
Proof.
  induction deltaTimes as [|dt dts IH] using rev_ind.
  - unfold Sun.run, Sun.initial, Sun.idleTime. cbn [fold_left Sun.timer].
    split; [lra|by right].
  - cbv zeta. rewrite run_snoc. by apply AnimateSun_timer.
Qed.

(** X17. The red component of the sun's colour is 5 at the end of every
    frame, whatever the frame times: both palettes have the same red.  As
    long as the blend factor [EaseInOutSine(deltaTime) * 10] is at most 1 in
    every frame, green stays between 2.5 and 4.25 and blue between 0.25 and
    2.75, the values of the orange and the white palette. *)
Theorem sun_colour_range (stationary : bool) (deltaTimes : list R) :
  let s := Sun.run stationary deltaTimes Sun.initial in
  Glm.vx (Sun.lightDiffuse s) = 5 /\
  (Forall (fun dt => Sun.EaseInOutSine dt * 10 <= 1) deltaTimes ->
   2.5 <= Glm.vy (Sun.lightDiffuse s) <= 4.25 /\
   0.25 <= Glm.vz (Sun.lightDiffuse s) <= 2.75).
Proof.
  induction deltaTimes as [|dt dts IH] using rev_ind.
  - unfold Sun.run, Sun.initial, Sun.WHITE, Glm.vscale, Sun.bloomFactor.
    cbn [fold_left Sun.lightDiffuse Glm.vx Glm.vy Glm.vz].
    split; [lra|]. intros _. lra.
  - cbv zeta in *. rewrite run_snoc. destruct IH as [Hr Hgb].
    destruct (AnimateSun_colour stationary dt _ Hr) as [Hr' Hgb'].
    split; [exact Hr'|]. intros Hall.
    apply Forall_app in Hall as [Hdts Hdt]. inversion Hdt; subst.
    apply Hgb'; [done|]. by apply Hgb.
Qed.

(** A run that blends toward the orange palette: after an 8 second first
    frame (blend factor 0) the sun is 2.4 degrees from the horizon, and a
    second frame of 0.1 seconds moves the colour from [WHITE] toward
    [ORANGE]. *)
Lemma sun_colour_range_witness :
  let s := Sun.run Sun.bIsSunStationary [8; 0.1] Sun.initial in
  Sun.lightDiffuse s = Glm.mix3 Sun.WHITE Sun.ORANGE (Sun.EaseInOutSine 0.1 * 10) /\
  Glm.vx (Sun.lightDiffuse s) = 5 /\
  2.5 <= Glm.vy (Sun.lightDiffuse s) < 4.25 /\
  0.25 <= Glm.vz (Sun.lightDiffuse s) < 2.75.
Proof.
  cbv zeta.
  destruct (sun_colour_range Sun.bIsSunStationary [8; 0.1]) as [Hr Hgb].
  destruct Hgb as [Hg Hb].
  { apply Forall_cons; split; [rewrite EaseInOutSine_8; lra|].
    apply Forall_cons; split; [apply EaseInOutSine_small; lra|apply Forall_nil_2]. }
  destruct (second_frame_blend 0.1) as [_ Hc]. cbv zeta in Hc.
  pose proof (EaseInOutSine_pos 0.1 ltac:(lra)) as Hpos.
  split; [exact Hc|]. split; [exact Hr|].
  assert (Hlt : Glm.vy (Sun.lightDiffuse (Sun.run Sun.bIsSunStationary [8; 0.1] Sun.initial))
                < 4.25 /\
                Glm.vz (Sun.lightDiffuse (Sun.run Sun.bIsSunStationary [8; 0.1] Sun.initial))
                < 2.75).
  { rewrite Hc. unfold Glm.mix3, Glm.mix, Sun.WHITE, Sun.ORANGE, Glm.vscale, Sun.bloomFactor.
    cbn [Glm.vx Glm.vy Glm.vz]. split; lra. }
  split; [split; [apply Hg|apply Hlt]|split; [apply Hb|apply Hlt]].
Defined.

(** X18. From the first update of the animated sun on, at the end of every
    frame the light sits where its angular position [sunVel] puts it,
    [(-R cos v, R sin v, -R cos v)] with [R = sunRadius], its distance from
    the origin is between [sunRadius] and [sunRadius * sqrt 2], and the
    stored angle is between 0 and 180 degrees (the start value 999.99 is
    gone). *)
Theorem sun_on_orbit (deltaTime : R) (deltaTimes : list R) :
  let s := Sun.run Sun.bIsSunStationary (deltaTime :: deltaTimes) Sun.initial in
  let v := Sun.sunVel s in
  Sun.lightPos s = Glm.Vec3 (Sun.sunRadius * - cos v) (Sun.sunRadius * sin v)
                            (Sun.sunRadius * - cos v) /\
  Sun.sunRadius <= Glm.length (Sun.lightPos s) <= Sun.sunRadius * sqrt 2 /\
  0 <= Sun.sunAngle s <= 180.
Proof.
  cbv zeta. rewrite run_cons.
  assert (H1 : let s := Sun.AnimateSun Sun.bIsSunStationary deltaTime Sun.initial in
               Sun.lightPos s = Glm.Vec3 (Sun.sunRadius * - cos (Sun.sunVel s))
                                  (Sun.sunRadius * sin (Sun.sunVel s))
                                  (Sun.sunRadius * - cos (Sun.sunVel s)) /\
               0 <= Sun.sunAngle s <= 180).
  { apply AnimateSun_orbit. by left. }
  cbv zeta in H1.
  generalize dependent (Sun.AnimateSun Sun.bIsSunStationary deltaTime Sun.initial).
  induction deltaTimes as [|dt dts IH]; intros s Hs.
  - cbn [Sun.run fold_left]. destruct Hs as [Hp Ha].
    split; [exact Hp|]. split; [|exact Ha].
    rewrite Hp, orbit_length.
    assert (1 <= sqrt (1 + cos (Sun.sunVel s) * cos (Sun.sunVel s))).
    { rewrite <- sqrt_1 at 1. apply sqrt_le_1_alt. nra. }
    assert (sqrt (1 + cos (Sun.sunVel s) * cos (Sun.sunVel s)) <= sqrt 2).
    { apply sqrt_le_1_alt. pose proof (COS_bound (Sun.sunVel s)). nra. }
    unfold Sun.sunRadius. nra.
  - rewrite run_cons. apply IH. apply AnimateSun_orbit. by right.
Qed.

(** ** The camera *)
Section CameraFacts.
Import Glm GlmVec Camera.

Lemma normalize_of_unit (v : vec3) : dot v v = 1 -> normalize v = v.
Proof.
  intros H. destruct v as [x y z]. unfold normalize, vscale. rewrite H, sqrt_1, Rinv_1.
  cbn [vx vy vz]. f_equal; ring.
Qed.

Lemma normalize_dot (v : vec3) : 0 < dot v v -> dot (normalize v) (normalize v) = 1.
Proof.
  intros H. unfold normalize, vscale. set (d := dot v v) in *.
  assert (Hs : 0 < sqrt d) by (by apply sqrt_lt_R0).
  assert (Hss : sqrt d * sqrt d = d) by (apply sqrt_sqrt; lra).
  unfold dot at 1. cbn [vx vy vz].
  replace (vx v * / sqrt d * (vx v * / sqrt d) + vy v * / sqrt d * (vy v * / sqrt d)
           + vz v * / sqrt d * (vz v * / sqrt d))
    with (dot v v * (/ sqrt d * / sqrt d)) by (unfold dot; ring).
  fold d. rewrite <- Rinv_mult, Hss. apply Rinv_r. lra.
Qed.

(** The direction computed from yaw and pitch is a unit vector. *)
Lemma direction_unit (a b : R) :
  dot (Vec3 (cos a * cos b) (sin b) (sin a * cos b))
      (Vec3 (cos a * cos b) (sin b) (sin a * cos b)) = 1.
Proof.
  unfold dot. cbn [vx vy vz].
  pose proof (sin2_cos2 a) as Ha. pose proof (sin2_cos2 b) as Hb.
  unfold Rsqr in Ha, Hb. nra.
Qed.

Lemma pitch_clamped (p : R) :
  let p1 := if Rgtb p 89 then 89 else p in
  let p2 := if Rltb p1 (-89) then -89 else p1 in
  -89 <= p2 <= 89 /\ (-89 <= p <= 89 -> p2 = p).
Proof.
  cbv zeta. unfold Rgtb.
  destruct (Rltb 89 p) eqn:E1.
  - apply Rltb_lt in E1.
    assert (Rltb 89 (-89) = false) as -> by (apply Rltb_ge; lra).
    split; lra.
  - apply Rltb_ge in E1. destruct (Rltb p (-89)) eqn:E2.
    + apply Rltb_lt in E2. split; lra.
    + apply Rltb_ge in E2. split; [lra|done].
Qed.

Lemma mouse_callback_fields (xpos ypos : R) (s : MouseState) :
  let s' := mouse_callback xpos ypos s in
  firstMouse s' = false /\ lastX s' = xpos /\ lastY s' = ypos /\
  yaw s' = yaw s + (xpos - (if firstMouse s then xpos else lastX s)) * cameraSensitivity /\
  cameraFront s' =
    normalize (Vec3 (cos (radians (yaw s')) * cos (radians (pitch s')))
                    (sin (radians (pitch s')))
                    (sin (radians (yaw s')) * cos (radians (pitch s')))).
Proof. done. Qed.

Lemma last_cons_default {A : Type} (a d : A) (l : list A) :
  List.last (a :: l) d = List.last l a.
Proof.
  revert a d. induction l as [|b l IH]; intros a d; [done|].
  change (List.last (a :: b :: l) d) with (List.last (b :: l) d).
  by rewrite !IH.
Qed.

Lemma mouse_events_cons (x y : R) (events : list (R * R)) (s : MouseState) :
  mouse_events ((x, y) :: events) s = mouse_events events (mouse_callback x y s).
Proof. reflexivity. Qed.

(** Events after the first: the yaw follows the cursor. *)
Lemma mouse_events_yaw (events : list (R * R)) (s : MouseState) :
  firstMouse s = false ->
  let s' := mouse_events events s in
  firstMouse s' = false /\
  lastX s' = List.last (List.map fst events) (lastX s) /\
  yaw s' = yaw s + cameraSensitivity * (lastX s' - lastX s).
Proof.
  revert s. induction events as [|[x y] events IH]; intros s Hf.
  - cbn. repeat split; [done|ring].
  - cbv zeta. rewrite mouse_events_cons.
    destruct (mouse_callback_fields x y s) as (Hf1 & Hx1 & _ & Hyaw1 & _).
    cbv zeta in Hf1, Hx1, Hyaw1. rewrite Hf in Hyaw1.
    destruct (IH (mouse_callback x y s) Hf1) as (Hf' & Hx' & Hyaw').
    cbn [List.map fst]. rewrite last_cons_default.
    rewrite Hx1 in Hx', Hyaw'.
    split; [exact Hf'|]. split; [exact Hx'|]. rewrite Hyaw', Hyaw1. ring.
Qed.

End CameraFacts.

(** X19. After every mouse event the pitch is between -89 and 89 degrees,
    [cameraFront] is the unit vector with that yaw and pitch, and it is
    not parallel to [cameraUp]: the cross product that [ProcessInput]
    normalises has length [cos(pitch)], which is positive. *)
Theorem mouse_callback_front (xpos ypos : R) (s : Camera.MouseState) :
  let s' := Camera.mouse_callback xpos ypos s in
  let y := GlmVec.radians (Camera.yaw s') in
  let p := GlmVec.radians (Camera.pitch s') in
  -89 <= Camera.pitch s' <= 89 /\
  Camera.cameraFront s' = Glm.Vec3 (cos y * cos p) (sin p) (sin y * cos p) /\
  Glm.length (Camera.cameraFront s') = 1 /\
  Glm.length (GlmVec.cross (Camera.cameraFront s') Camera.cameraUp) = cos p /\
  0 < cos p.
Proof.
  cbv zeta.
  destruct (mouse_callback_fields xpos ypos s) as (_ & _ & _ & _ & Hfront).
  cbv zeta in Hfront. rewrite normalize_of_unit in Hfront by apply direction_unit.
  assert (Hp : -89 <= Camera.pitch (Camera.mouse_callback xpos ypos s) <= 89).
  { unfold Camera.mouse_callback. cbn [Camera.pitch]. apply pitch_clamped. }
  set (s' := Camera.mouse_callback xpos ypos s) in *.
  pose proof PI_bounds as HPI.
  assert (Hc : 0 < cos (GlmVec.radians (Camera.pitch s'))).
  { apply cos_gt_0; unfold GlmVec.radians; nra. }
  split; [exact Hp|]. split; [exact Hfront|]. rewrite Hfront.
  split; [|split; [|exact Hc]].
  - unfold Glm.length. rewrite direction_unit. apply sqrt_1.
  - unfold Glm.length, GlmVec.cross, Camera.cameraUp, Glm.dot. cbn [Glm.vx Glm.vy Glm.vz].
    set (cp := cos (GlmVec.radians (Camera.pitch s'))) in *.
    set (a := GlmVec.radians (Camera.yaw s')).
    pose proof (sin2_cos2 a) as Ha. unfold Rsqr in Ha.
    match goal with
    | |- sqrt ?e = _ => replace e with (cp * cp) by nra
    end.
    apply sqrt_square. lra.
Qed.

(** X20. After any sequence of mouse events that starts with the first one
    ([firstMouse] set), the yaw is the yaw before plus the sensitivity
    times the horizontal distance between the first and the last cursor
    position; the positions in between do not matter, and a single event
    does not turn the camera. *)
Theorem yaw_follows_cursor (x0 y0 : R) (events : list (R * R)) (s : Camera.MouseState) :
  Camera.firstMouse s = true ->
  let s' := Camera.mouse_events ((x0, y0) :: events) s in
  let xn := List.last (List.map fst events) x0 in
  Camera.firstMouse s' = false /\
  Camera.lastX s' = xn /\
  Camera.yaw s' = Camera.yaw s + Camera.cameraSensitivity * (xn - x0).
Proof.
  intros Hf. cbv zeta. rewrite mouse_events_cons.
  destruct (mouse_callback_fields x0 y0 s) as (Hf1 & Hx1 & _ & Hyaw1 & _).
  cbv zeta in Hf1, Hx1, Hyaw1. rewrite Hf in Hyaw1.
  destruct (mouse_events_yaw events (Camera.mouse_callback x0 y0 s) Hf1)
    as (Hf' & Hx' & Hyaw').
  rewrite Hx1 in Hx', Hyaw'.
  split; [exact Hf'|]. split; [exact Hx'|].
  rewrite Hyaw', Hyaw1, Hx'. ring.
Qed.

Lemma yaw_follows_cursor_witness :
  Camera.yaw (Camera.mouse_events [(100, 200); (400, 90); (130, 250)] Camera.mouse_initial)
  = -45 + Camera.cameraSensitivity * (130 - 100).
Proof.
  destruct (yaw_follows_cursor 100 200 [(400, 90); (130, 250)] Camera.mouse_initial
              eq_refl) as (_ & _ & H).
  exact H.
Defined.

(** X21. The first mouse event does not turn the camera: with [firstMouse]
    set, the yaw is unchanged, and so is a pitch that is within the clamp
    of -89 to 89 degrees, wherever the cursor is reported. *)
Theorem first_mouse_event (xpos ypos : R) (s : Camera.MouseState) :
  Camera.firstMouse s = true ->
  -89 <= Camera.pitch s <= 89 ->
  let s' := Camera.mouse_callback xpos ypos s in
  Camera.yaw s' = Camera.yaw s /\ Camera.pitch s' = Camera.pitch s /\
  Camera.firstMouse s' = false.
Proof.
  intros Hf Hp. cbv zeta. unfold Camera.mouse_callback. rewrite Hf.
  cbn [Camera.yaw Camera.pitch Camera.firstMouse].
  split; [ring|]. split; [|reflexivity].
  replace (Camera.pitch s + (ypos - ypos) * Camera.cameraSensitivity)
    with (Camera.pitch s) by ring.
  by apply pitch_clamped.
Qed.

Lemma first_mouse_event_witness :
  Camera.yaw (Camera.mouse_callback 1234 56 Camera.mouse_initial) = -45 /\
  Camera.pitch (Camera.mouse_callback 1234 56 Camera.mouse_initial) = -45.
Proof.
  destruct (first_mouse_event 1234 56 Camera.mouse_initial eq_refl) as (Hy & Hp & _).
  - unfold Camera.mouse_initial. cbn [Camera.pitch]. lra.
  - split; [exact Hy|exact Hp].
Defined.

Section ProcessInputFacts.
Import Glm GlmVec Camera.

(** 1 for a pressed key, 0 for a released one. *)
Lemma ProcessInput_cameraPos (keys : Keys) (front : vec3) (dt : R) (c : CameraState) :
  let n := fun k : key_action => if pressed k then 1 else 0 in
  let right := normalize (cross front cameraUp) in
  cameraPos (ProcessInput keys front dt c) =
  vadd (cameraPos c)
       (vadd (vscale front ((n (KEY_W keys) - n (KEY_S keys)) * cameraSpeed c * dt))
             (vscale right ((n (KEY_D keys) - n (KEY_A keys)) * cameraSpeed c * dt))).
Proof.
  cbv zeta. unfold ProcessInput. cbn [cameraPos].
  set (r := normalize (cross front cameraUp)).
  destruct (pressed (KEY_W keys)), (pressed (KEY_A keys)),
           (pressed (KEY_S keys)), (pressed (KEY_D keys));
    unfold vadd, vsub, vscale; cbn [vx vy vz];
    destruct (cameraPos c) as [px py pz]; cbn [vx vy vz]; f_equal; ring.
Qed.

Lemma vadd_sub (a b : vec3) : vsub (vadd a b) a = b.
Proof.
  destruct a, b. unfold vsub, vadd. cbn [vx vy vz]. f_equal; ring.
Qed.

End ProcessInputFacts.

(** X22. One call of [ProcessInput] moves the camera by
    [front * (W - S) * speed * dt + right * (D - A) * speed * dt], where a
    pressed key counts 1, a released key 0 and [right] is the normalised
    cross product of the front and up vectors.  Opposite keys cancel: with
    W and S in the same state and A and D in the same state the camera
    does not move. *)
Theorem ProcessInput_moves (keys : Camera.Keys) (front : Glm.vec3) (deltaTime : R)
    (c : Camera.CameraState) :
  let n := fun k : Camera.key_action => if Camera.pressed k then 1 else 0 in
  let right := Glm.normalize (GlmVec.cross front Camera.cameraUp) in
  let c' := Camera.ProcessInput keys front deltaTime c in
  Camera.cameraPos c' =
    GlmVec.vadd (Camera.cameraPos c)
      (GlmVec.vadd
         (Glm.vscale front ((n (Camera.KEY_W keys) - n (Camera.KEY_S keys))
                            * Camera.cameraSpeed c * deltaTime))
         (Glm.vscale right ((n (Camera.KEY_D keys) - n (Camera.KEY_A keys))
                            * Camera.cameraSpeed c * deltaTime))) /\
  (Camera.KEY_W keys = Camera.KEY_S keys -> Camera.KEY_A keys = Camera.KEY_D keys ->
   Camera.cameraPos c' = Camera.cameraPos c).
Proof.
  cbv zeta. split; [apply ProcessInput_cameraPos|].
  intros Hws Had. rewrite ProcessInput_cameraPos. cbv zeta. rewrite Hws, Had.
  destruct (Camera.cameraPos c) as [px py pz].
  unfold GlmVec.vadd, Glm.vscale. cbn [Glm.vx Glm.vy Glm.vz]. f_equal; ring.
Qed.

Lemma ProcessInput_moves_witness :
  Camera.cameraPos
    (Camera.ProcessInput
       (Camera.MkKeys Camera.GLFW_RELEASE Camera.GLFW_PRESS Camera.GLFW_RELEASE
                      Camera.GLFW_PRESS Camera.GLFW_RELEASE Camera.GLFW_PRESS)
       (Glm.Vec3 0.5 0 0.5) 0.016 Camera.camera_initial)
  = Camera.cameraPos Camera.camera_initial.
Proof.
  apply (ProcessInput_moves
           (Camera.MkKeys Camera.GLFW_RELEASE Camera.GLFW_PRESS Camera.GLFW_RELEASE
                          Camera.GLFW_PRESS Camera.GLFW_RELEASE Camera.GLFW_PRESS));
    reflexivity.
Defined.

(** X23. The left shift key changes the speed only for the frames that
    follow: a call of [ProcessInput] moves the camera at the speed chosen
    by the shift key in the call before it (10 when it was pressed, 2.5
    when it was released), whatever the shift key is now. *)
Theorem shift_acts_next_frame (keys1 keys2 : Camera.Keys) (front1 front2 : Glm.vec3)
    (dt1 dt2 : R) (c : Camera.CameraState) :
  Camera.KEY_W keys2 = Camera.GLFW_PRESS ->
  Camera.KEY_A keys2 = Camera.GLFW_RELEASE ->
  Camera.KEY_S keys2 = Camera.GLFW_RELEASE ->
  Camera.KEY_D keys2 = Camera.GLFW_RELEASE ->
  let c1 := Camera.ProcessInput keys1 front1 dt1 c in
  let c2 := Camera.ProcessInput keys2 front2 dt2 c1 in
  let speed := match Camera.KEY_LEFT_SHIFT keys1 with
               | Camera.GLFW_PRESS => 10
               | Camera.GLFW_RELEASE => 2.5
               end in
  GlmVec.vsub (Camera.cameraPos c2) (Camera.cameraPos c1)
    = Glm.vscale front2 (speed * dt2).
Proof.
  intros Hw Ha Hs Hd. cbv zeta. rewrite (ProcessInput_cameraPos keys2). cbv zeta.
  rewrite Hw, Ha, Hs, Hd. cbn [Camera.pressed].
  rewrite vadd_sub.
  set (r := Glm.normalize _). destruct front2 as [fx fy fz].
  unfold GlmVec.vadd, Glm.vscale, Camera.ProcessInput.
  cbn [Glm.vx Glm.vy Glm.vz Camera.cameraSpeed]. f_equal; ring.
Qed.

Lemma shift_acts_next_frame_witness :
  let shift_w := Camera.MkKeys Camera.GLFW_RELEASE Camera.GLFW_PRESS Camera.GLFW_RELEASE
                   Camera.GLFW_RELEASE Camera.GLFW_RELEASE Camera.GLFW_PRESS in
  let w := Camera.MkKeys Camera.GLFW_RELEASE Camera.GLFW_PRESS Camera.GLFW_RELEASE
             Camera.GLFW_RELEASE Camera.GLFW_RELEASE Camera.GLFW_RELEASE in
  let c1 := Camera.ProcessInput shift_w (Glm.Vec3 1 0 0) 0.016 Camera.camera_initial in
  let c2 := Camera.ProcessInput w (Glm.Vec3 1 0 0) 0.016 c1 in
  GlmVec.vsub (Camera.cameraPos c1) (Camera.cameraPos Camera.camera_initial)
    = Glm.vscale (Glm.Vec3 1 0 0) (2.5 * 0.016) /\
  GlmVec.vsub (Camera.cameraPos c2) (Camera.cameraPos c1)
    = Glm.vscale (Glm.Vec3 1 0 0) (10 * 0.016).
Proof.
  cbv zeta. split.
  - unfold Camera.ProcessInput, Camera.camera_initial, GlmVec.vsub, GlmVec.vadd, Glm.vscale.
    cbn [Camera.pressed Camera.KEY_W Camera.KEY_A Camera.KEY_S Camera.KEY_D
         Camera.cameraPos Camera.cameraSpeed Glm.vx Glm.vy Glm.vz].
    f_equal; ring.
  - apply (shift_acts_next_frame
             (Camera.MkKeys Camera.GLFW_RELEASE Camera.GLFW_PRESS Camera.GLFW_RELEASE
                Camera.GLFW_RELEASE Camera.GLFW_RELEASE Camera.GLFW_PRESS)
             (Camera.MkKeys Camera.GLFW_RELEASE Camera.GLFW_PRESS Camera.GLFW_RELEASE
                Camera.GLFW_RELEASE Camera.GLFW_RELEASE Camera.GLFW_RELEASE));
      reflexivity.
Defined.

(** X24. Moving diagonally is faster: for a unit front vector that is not
    parallel to [cameraUp] (as after any mouse event), W together with D
    moves the camera by [sqrt 2 * speed * dt] in one call, against
    [speed * dt] for W alone. *)
Theorem diagonal_is_faster (keys : Camera.Keys) (front : Glm.vec3) (deltaTime : R)
    (c : Camera.CameraState) :
  Glm.dot front front = 1 ->
  0 < Glm.dot (GlmVec.cross front Camera.cameraUp) (GlmVec.cross front Camera.cameraUp) ->
  0 <= Camera.cameraSpeed c -> 0 <= deltaTime ->
  Camera.KEY_W keys = Camera.GLFW_PRESS ->
  Camera.KEY_A keys = Camera.GLFW_RELEASE ->
  Camera.KEY_S keys = Camera.GLFW_RELEASE ->
  let step := GlmVec.vsub (Camera.cameraPos (Camera.ProcessInput keys front deltaTime c))
                          (Camera.cameraPos c) in
  (Camera.KEY_D keys = Camera.GLFW_PRESS ->
     Glm.length step = sqrt 2 * (Camera.cameraSpeed c * deltaTime)) /\
  (Camera.KEY_D keys = Camera.GLFW_RELEASE ->
     Glm.length step = Camera.cameraSpeed c * deltaTime).
Proof.
  intros Hf Hc Hsp Hdt Hw Ha Hs. cbv zeta.
  rewrite ProcessInput_cameraPos. cbv zeta. rewrite vadd_sub, Hw, Ha, Hs.
  cbn [Camera.pressed].
  pose proof (normalize_dot _ Hc) as Hr.
  assert (Hfr : Glm.dot front (Glm.normalize (GlmVec.cross front Camera.cameraUp)) = 0).
  { unfold Glm.normalize, Glm.vscale, GlmVec.cross, Camera.cameraUp, Glm.dot.
    cbn [Glm.vx Glm.vy Glm.vz]. ring. }
  set (r := Glm.normalize (GlmVec.cross front Camera.cameraUp)) in *.
  set (k := Camera.cameraSpeed c * deltaTime).
  assert (Hk : 0 <= k) by (unfold k; nra).
  unfold Glm.dot in Hf, Hr, Hfr.
  split; intros ->; cbn [Camera.pressed]; unfold Glm.length.
  - match goal with
    | |- sqrt ?e = _ => replace e with (2 * (k * k))
    end.
    + rewrite sqrt_mult by nra. rewrite sqrt_square by exact Hk. reflexivity.
    + unfold Glm.dot, GlmVec.vadd, Glm.vscale, k. cbn [Glm.vx Glm.vy Glm.vz]. nra.
  - match goal with
    | |- sqrt ?e = _ => replace e with (k * k)
    end.
    + by apply sqrt_square.
    + unfold Glm.dot, GlmVec.vadd, Glm.vscale, k. cbn [Glm.vx Glm.vy Glm.vz]. nra.
Qed.

Lemma diagonal_is_faster_witness :
  let wd := Camera.MkKeys Camera.GLFW_RELEASE Camera.GLFW_PRESS Camera.GLFW_RELEASE
              Camera.GLFW_RELEASE Camera.GLFW_PRESS Camera.GLFW_RELEASE in
  Glm.length
    (GlmVec.vsub
       (Camera.cameraPos (Camera.ProcessInput wd (Glm.Vec3 1 0 0) 0.016 Camera.camera_initial))
       (Camera.cameraPos Camera.camera_initial))
  = sqrt 2 * (2.5 * 0.016).
Proof.
  cbv zeta.
  destruct (diagonal_is_faster
              (Camera.MkKeys Camera.GLFW_RELEASE Camera.GLFW_PRESS Camera.GLFW_RELEASE
                 Camera.GLFW_RELEASE Camera.GLFW_PRESS Camera.GLFW_RELEASE)
              (Glm.Vec3 1 0 0) 0.016 Camera.camera_initial) as [Hd _];
    try reflexivity.
  - unfold Glm.dot. cbn [Glm.vx Glm.vy Glm.vz]. lra.
  - unfold Glm.dot, GlmVec.cross, Camera.cameraUp. cbn [Glm.vx Glm.vy Glm.vz]. lra.
  - unfold Camera.camera_initial. cbn [Camera.cameraSpeed]. lra.
  - lra.
  - exact (Hd eq_refl).
Defined.

(** ** The frame clock *)
Section ClockFacts.
Import Clock.

Lemma frame_deltas_total (times : list R) (s : ClockState) :
  total (frame_deltas times s) = List.last times (lastFrame s) - lastFrame s.
Proof.
  revert s. induction times as [|t times IH]; intros s.
  - cbn. ring.
  - cbn [frame_deltas total fold_right]. fold (total (frame_deltas times (tick t s))).
    rewrite IH, last_cons_default. cbn [tick lastFrame deltaTime]. ring.
Qed.

Lemma frame_deltas_nonneg (times : list R) (s : ClockState) :
  Sorted Rle (lastFrame s :: times) ->
  Forall (fun dt => 0 <= dt) (frame_deltas times s).
Proof.
  revert s. induction times as [|t times IH]; intros s Hs; [constructor|].
  cbn [frame_deltas]. apply Sorted_inv in Hs as [Hs Hhd].
  apply HdRel_inv in Hhd. constructor.
  - cbn [tick deltaTime]. lra.
  - apply IH. exact Hs.
Qed.

End ClockFacts.

(** X25. The frame times of the render loop add up to the clock: over any
    run, the sum of all [deltaTime] values is the time read in the last
    frame, and the first [deltaTime] is the time read in the first frame,
    that is the whole time since GLFW was initialised.  If the clock never
    runs backwards no [deltaTime] is negative. *)
Theorem frame_times_add_up (t0 : R) (times : list R) :
  0 <= t0 ->
  Sorted Rle (t0 :: times) ->
  let deltas := Clock.frame_deltas (t0 :: times) Clock.clock_initial in
  Clock.total deltas = List.last times t0 /\
  List.hd 0 deltas = t0 /\
  Forall (fun dt => 0 <= dt) deltas.
Proof.
  intros H0 Hs deltas. subst deltas. split; [|split].
  - rewrite frame_deltas_total, last_cons_default.
    cbn [Clock.clock_initial Clock.lastFrame]. ring.
  - cbn. ring.
  - apply frame_deltas_nonneg. cbn [Clock.clock_initial Clock.lastFrame].
    constructor; [exact Hs|]. by constructor.
Qed.

Lemma frame_times_add_up_witness :
  Clock.total (Clock.frame_deltas [3.5; 3.516; 3.533] Clock.clock_initial) = 3.533 /\
  List.hd 0 (Clock.frame_deltas [3.5; 3.516; 3.533] Clock.clock_initial) = 3.5.
Proof.
  destruct (frame_times_add_up 3.5 [3.516; 3.533]) as (Ht & Hh & _).
  - lra.
  - repeat (constructor; try lra).
  - split; [exact Ht|exact Hh].
Defined.

Section WaitingRun.
Import Glm Sun.

(** A waiting sun through frames whose times stay below [idleTime]. *)
Lemma waiting_run (dts : list R) (s : SunState) :
  waiting_consistent s ->
  bWaiting s = true ->
  Forall (fun dt => 0 <= dt) dts ->
  timer s + Clock.total dts < idleTime ->
  let s' := run bIsSunStationary dts s in
  bWaiting s' = true /\ timer s' = timer s + Clock.total dts /\
  lightPos s' = lightPos s.
Proof.
  revert s. induction dts as [|dt dts IH]; intros s Hc Hw Hall Hlt.
  - cbn. repeat split; [done|ring].
  - cbv zeta. rewrite run_cons.
    apply Forall_cons in Hall as [Hdt Hall].
    assert (Htot : 0 <= Clock.total dts).
    { clear -Hall. induction Hall as [|x l Hx _ IHl]; cbn; [lra|].
      fold (Clock.total l). lra. }
    cbn [Clock.total fold_right] in Hlt. fold (Clock.total dts) in Hlt.
    destruct (waiting_step dt s Hc Hw) as [_ Hstay].
    destruct (Hstay ltac:(lra)) as (Hw1 & Ht1 & _).
    assert (Hp1 : lightPos (AnimateSun bIsSunStationary dt s) = lightPos s).
    { unfold AnimateSun, bIsSunStationary. rewrite Hw.
      destruct (horizon_check_fields (wait_update dt s)) as (-> & _).
      by destruct (wait_update_fields dt s) as (-> & _). }
    destruct (IH (AnimateSun bIsSunStationary dt s)) as (Hw' & Ht' & Hp').
    + by apply AnimateSun_waiting_consistent.
    + exact Hw1.
    + exact Hall.
    + rewrite Ht1. lra.
    + split; [exact Hw'|]. split.
      * rewrite Ht', Ht1. cbn [Clock.total fold_right]. fold (Clock.total dts). ring.
      * by rewrite Hp', Hp1.
Qed.

End WaitingRun.

(** X26. A sun that waits keeps waiting, in place, through any further
    frames whose (non-negative) times add up, together with the time
    already waited, to less than [idleTime]; its timer then holds exactly
    the time waited so far. *)
Theorem waiting_lasts (before frames : list R) :
  let s := Sun.run Sun.bIsSunStationary before Sun.initial in
  let s' := Sun.run Sun.bIsSunStationary frames s in
  Sun.phase Sun.bIsSunStationary s = Sun.Waiting ->
  Forall (fun dt => 0 <= dt) frames ->
  Sun.timer s + Clock.total frames < Sun.idleTime ->
  Sun.phase Sun.bIsSunStationary s' = Sun.Waiting /\
  Sun.timer s' = Sun.timer s + Clock.total frames /\
  Sun.lightPos s' = Sun.lightPos s.
Proof.
  intros s s' Hph Hall Hlt. subst s'. rewrite phase_animated in *.
  assert (Hw : Sun.bWaiting s = true) by (by destruct (Sun.bWaiting s)).
  destruct (waiting_run frames s (run_waiting_consistent _ before) Hw Hall Hlt)
    as (-> & Ht & Hp).
  by split.
Qed.

Lemma waiting_lasts_witness :
  let s := Sun.run Sun.bIsSunStationary [8; 1] Sun.initial in
  let s' := Sun.run Sun.bIsSunStationary [0.3; 0.3; 0.3] s in
  Sun.phase Sun.bIsSunStationary s' = Sun.Waiting /\
  Sun.timer s' = Sun.timer s + Clock.total [0.3; 0.3; 0.3].
Proof.
  cbv zeta.
  destruct (waiting_lasts [8; 1] [0.3; 0.3; 0.3]) as (Hph & Ht & _).
  - rewrite phase_animated. by destruct second_frame as (_ & _ & _ & ->).
  - repeat (apply Forall_cons; split; [lra|]). apply Forall_nil_2.
  - destruct second_frame as (_ & -> & _). unfold Sun.idleTime, Clock.total.
    cbn [fold_right]. lra.
  - split; [exact Hph|exact Ht].
Defined.

(** X27. After a first frame of any length, the exposure is within
    [minExposure, maxExposure] at the end of every frame for as long as the
    frames that follow keep the blend factor [EaseInOutSine(deltaTime) * 10]
    at most 1, as every [deltaTime] between 0 and 0.2 seconds does
    ([EaseInOutSine_small]): with such a factor [glm::mix] interpolates. *)
Theorem exposure_bounded_after_first_frame (stationary : bool) (first : R)
    (deltaTimes : list R) :
  Forall (fun dt => Sun.EaseInOutSine dt * 10 <= 1) deltaTimes ->
  Sun.exposure_in_bounds (Sun.run stationary [first] Sun.initial) /\
  forall k : nat,
    Sun.exposure_in_bounds
      (Sun.run stationary (first :: take k deltaTimes) Sun.initial).
Proof.
  intros Hall.
  assert (H1 : Sun.exposure_in_bounds (Sun.AnimateSun stationary first Sun.initial)).
  { unfold Sun.exposure_in_bounds. rewrite first_frame_exposure.
    unfold Sun.minExposure, Sun.maxExposure. lra. }
  split; [exact H1|].
  intros k. rewrite run_cons. apply run_exposure_from; [exact H1|].
  by apply Forall_take.
Qed.

(** An 8 second first frame, then frames of 0.1 and 0.2 seconds: the second
    frame moves the exposure below [maxExposure], and it stays in bounds. *)
Lemma exposure_bounded_after_first_frame_witness :
  Sun.exposure (Sun.run Sun.bIsSunStationary [8; 0.1] Sun.initial) < Sun.maxExposure /\
  Sun.exposure_in_bounds (Sun.run Sun.bIsSunStationary [8; 0.1] Sun.initial) /\
  Sun.exposure_in_bounds (Sun.run Sun.bIsSunStationary [8; 0.1; 0.2] Sun.initial).
Proof.
  destruct (exposure_bounded_after_first_frame Sun.bIsSunStationary 8 [0.1; 0.2])
    as [_ Hk].
  { repeat (apply Forall_cons; split; [apply EaseInOutSine_small; lra|]).
    apply Forall_nil_2. }
  split; [|split; [exact (Hk 1%nat)|exact (Hk 2%nat)]].
  destruct (second_frame_blend 0.1) as [-> _].
  pose proof (EaseInOutSine_pos 0.1 ltac:(lra)) as Hpos.
  unfold Glm.mix, Sun.maxExposure, Sun.minExposure. lra.
Defined.
